(** * Verification of the sequential cart-operation queue and the optimistic
      cart store of the MCP e-commerce demo.

    Sources embedded here:
    - [AsyncQueue] : src/unnamed/part_005 (the [AsyncQueue] class)
    - [CartStore]  : src/frontend/src/stores/cart.ts (the queue-backed store)

    The JavaScript event loop is modelled as a small-step machine: each step
    is one run-to-completion slice (a synchronous call from outside, a
    promise of the environment settling, or a microtask resuming a suspended
    [async] frame).  A log of events is kept next to the state, as the
    instrumentation a test would add to the work functions. *)

From Stdlib Require Import List String ZArith Bool Lia Sorting.Sorted PrimFloat.
From Stdlib Require FloatOps SpecFloat.
Import ListNotations.

(** Small list helpers used by the state machines. *)
Fixpoint replace_nth {A} (k : nat) (x : A) (l : list A) : list A :=
  match k, l with
  | O, _ :: tl => x :: tl
  | S k', y :: tl => y :: replace_nth k' x tl
  | _, [] => []
  end.

Fixpoint remove_nth {A} (k : nat) (l : list A) : list A :=
  match k, l with
  | O, _ :: tl => tl
  | S k', y :: tl => y :: remove_nth k' tl
  | _, [] => []
  end.

Module AsyncQueue.
Section Queue.
(** [W] is the work closure [operation : () => Promise<T>]; [V] and [E]
    are the values and the errors its promise settles with. *)
Context {W V E : Type}.
(** [new Error(msg)] *)
Context (mk_error : string -> E).

(** [QueuedOperation]; [ticket] is the identity of the JS object (the
    number of [enqueue] calls made before it), kept as ghost data so that
    two operations with the same [id] remain distinct.  [resolve] and
    [reject] are modelled by the [EvDeliver] and [EvCancel] log events;
    [timestamp] is diagnostic only and not modelled. *)
Record QueuedOperation := mkOp {
  id : string;
  operation : W;
  ticket : nat
}.

(** The fields of an [AsyncQueue] object. *)
Record state := mkQ {
  queue : list QueuedOperation;
  isProcessing : bool;
  activeOperation : option string
}.

Inductive outcome := Resolved (v : V) | Rejected (e : E).

(** A suspended [processQueue] frame: waiting on [await operation.operation()],
    or with that promise settled and its continuation queued as a microtask. *)
Inductive frame :=
| Awaiting (o : QueuedOperation)
| Resumable (o : QueuedOperation) (r : outcome).

Inductive event :=
| EvEnqueue (t : nat)              (* [this.queue.push(queuedOp)] *)
| EvStart (t : nat)                (* [operation.operation()] is called *)
| EvSettle (t : nat) (r : outcome) (* the work's promise settles *)
| EvDeliver (t : nat) (r : outcome)(* [operation.resolve] / [operation.reject] in the loop *)
| EvCancel (t : nat) (e : E).      (* [op.reject(...)] in [clear] *)

(** The test of [while (this.queue.length > 0)] followed by
    [this.queue.shift()] and [this.activeOperation = operation.id]; when the
    queue is empty the loop exits and [this.isProcessing = false]. *)
Definition loop_head (q : state) : state * option QueuedOperation :=
  match queue q with
  | o :: rest => (mkQ rest (isProcessing q) (Some (id o)), Some o)
  | [] => (mkQ [] false (activeOperation q), None)
  end.

(** Synchronous prefix of [processQueue]: the guard, [isProcessing = true],
    and the first loop iteration up to the call of the work. *)
Definition processQueue (q : state) : state * option QueuedOperation :=
  if isProcessing q || (List.length (queue q) =? 0) then (q, None)
  else loop_head (mkQ (queue q) true (activeOperation q)).

(** [enqueue]: the Promise executor runs synchronously: push, then
    [if (!this.isProcessing) this.processQueue()]. The returned operation,
    if any, is the one whose work is called before [enqueue] returns. *)
Definition enqueue (o : QueuedOperation) (q : state) : state * option QueuedOperation :=
  let q1 := mkQ (queue q ++ [o]) (isProcessing q) (activeOperation q) in
  if negb (isProcessing q1) then processQueue q1 else (q1, None).

(** Continuation of [processQueue] after the awaited work settled: the
    result is routed ([EvDeliver]), [finally] clears [activeOperation],
    and the loop test runs again. *)
Definition resume (q : state) : state * option QueuedOperation :=
  loop_head (mkQ (queue q) (isProcessing q) None).

Definition cancel_msg : string := "Operation cancelled - queue cleared".

(** [clear]: rejects every queued operation, then [this.queue = []]. *)
Definition clear (q : state) : state * list QueuedOperation :=
  (mkQ [] (isProcessing q) (activeOperation q), queue q).

Definition getStatus (q : state) : nat * bool * option string :=
  (List.length (queue q), isProcessing q, activeOperation q).

(** ** The queue with works whose promises are settled by the environment *)

Record world := mkW {
  q : state;
  loops : list frame;       (* live [processQueue] frames *)
  next : nat;               (* number of [enqueue] calls so far *)
  trace : list event        (* chronological log *)
}.

Inductive action :=
| AEnqueue (i : string) (w : W)   (* a caller runs [enqueue(w, i)] *)
| ASettle (k : nat) (r : outcome) (* the work awaited by frame [k] settles *)
| AResume (k : nat)               (* the microtask of frame [k] runs *)
| AClear.                         (* a caller runs [clear()] *)

Definition w0 : world := mkW (mkQ [] false None) [] 0 [].

Definition qstep (w : world) (a : action) : option world :=
  match a with
  | AEnqueue i wk =>
      let o := mkOp i wk (next w) in
      let tr := trace w ++ [EvEnqueue (next w)] in
      match enqueue o (q w) with
      | (q', Some o') =>
          Some (mkW q' (loops w ++ [Awaiting o']) (S (next w)) (tr ++ [EvStart (ticket o')]))
      | (q', None) => Some (mkW q' (loops w) (S (next w)) tr)
      end
  | ASettle k r =>
      match nth_error (loops w) k with
      | Some (Awaiting o) =>
          Some (mkW (q w) (replace_nth k (Resumable o r) (loops w)) (next w)
                    (trace w ++ [EvSettle (ticket o) r]))
      | _ => None
      end
  | AResume k =>
      match nth_error (loops w) k with
      | Some (Resumable o r) =>
          let tr := trace w ++ [EvDeliver (ticket o) r] in
          match resume (q w) with
          | (q', Some o') =>
              Some (mkW q' (replace_nth k (Awaiting o') (loops w)) (next w)
                        (tr ++ [EvStart (ticket o')]))
          | (q', None) => Some (mkW q' (remove_nth k (loops w)) (next w) tr)
          end
      | _ => None
      end
  | AClear =>
      let (q', cancelled) := clear (q w) in
      Some (mkW q' (loops w) (next w)
                (trace w ++ map (fun o => EvCancel (ticket o) (mk_error cancel_msg)) cancelled))
  end.

Fixpoint run (w : world) (acts : list action) : option world :=
  match acts with
  | [] => Some w
  | a :: rest => match qstep w a with Some w' => run w' rest | None => None end
  end.

Definition frame_op (f : frame) : QueuedOperation :=
  match f with Awaiting o => o | Resumable o _ => o end.

Inductive reach : world -> Prop :=
| reach_init : reach w0
| reach_step w a w' : reach w -> qstep w a = Some w' -> reach w'.

Definition started (t : nat) (tr : list event) : Prop := In (EvStart t) tr.
Definition settled (t : nat) (tr : list event) : Prop := exists r, In (EvSettle t r) tr.
Definition cancelled (t : nat) (tr : list event) : Prop := exists e, In (EvCancel t e) tr.

(** The operations in the order of their [enqueue] calls, read off the log. *)
Definition enq_tickets (tr : list event) : list nat :=
  flat_map (fun e => match e with EvEnqueue t => [t] | _ => [] end) tr.

(** The operations whose work was called, and those rejected by [clear],
    read off the log. *)
Definition start_tickets (tr : list event) : list nat :=
  flat_map (fun e => match e with EvStart t => [t] | _ => [] end) tr.

Definition cancel_tickets (tr : list event) : list nat :=
  flat_map (fun e => match e with EvCancel t _ => [t] | _ => [] end) tr.

(** The operations enqueued so far whose work was neither called nor
    cancelled, in the order of their [enqueue] calls. *)
Definition waiting_tickets (w : world) : list nat :=
  filter (fun t => negb (existsb (Nat.eqb t) (start_tickets (trace w)))
                   && negb (existsb (Nat.eqb t) (cancel_tickets (trace w))))
         (seq 0 (next w)).

(** The log a drain produces when the running operation [t] and then the
    queued operations [ps] settle, in turn, with the outcomes [rs]. *)
Fixpoint drain_log (t : nat) (ps : list QueuedOperation) (rs : list outcome) : list event :=
  match rs, ps with
  | r :: rs', p :: ps' => EvSettle t r :: EvDeliver t r :: EvStart (ticket p) :: drain_log (ticket p) ps' rs'
  | r :: _, [] => [EvSettle t r; EvDeliver t r]
  | [], _ => []
  end.

Definition settle_and_resume (rs : list outcome) : list action :=
  flat_map (fun r => [ASettle 0 r; AResume 0]) rs.

(** ** Invariant of the reachable queue states *)

Definition frame_ok (f : frame) (tr : list event) : Prop :=
  match f with
  | Awaiting o => ~ settled (ticket o) tr
  | Resumable o r => In (EvSettle (ticket o) r) tr
  end.

Record Inv (w : world) : Prop := {
  inv_shape : (loops w = [] /\ isProcessing (q w) = false /\ queue (q w) = []) \/
              (exists f, loops w = [f] /\ isProcessing (q w) = true);
  inv_pending : forall o, In o (queue (q w)) ->
    ~ started (ticket o) (trace w) /\ ~ cancelled (ticket o) (trace w) /\
    ticket o < next w /\ (forall t, started t (trace w) -> t < ticket o);
  inv_sorted : StronglySorted (fun a b => ticket a < ticket b) (queue (q w));
  inv_frame : forall f, In f (loops w) ->
    started (ticket (frame_op f)) (trace w) /\ frame_ok f (trace w);
  inv_started : forall t, started t (trace w) -> t < next w /\
    (settled t (trace w) \/ exists f, In f (loops w) /\ ticket (frame_op f) = t);
  inv_settled : forall t, settled t (trace w) -> started t (trace w);
  inv_cancelled : forall t, cancelled t (trace w) -> t < next w;
  inv_cover : forall t, t < next w ->
    (exists o, In o (queue (q w)) /\ ticket o = t) \/ started t (trace w) \/ cancelled t (trace w);
  inv_deliver : forall t r, In (EvDeliver t r) (trace w) -> In (EvSettle t r) (trace w)
}.

End Queue.

(** A concrete queue to run the theorems on: works are [unit] closures and
    errors are their messages. *)
Definition demo_world (acts : list (@action unit unit string)) : @world unit unit string :=
  match run (fun s => s) w0 acts with Some w => w | None => w0 end.

End AsyncQueue.

(** * The queue-backed cart store (src/frontend/src/stores/cart.ts) *)
Module CartStore.

Local Open Scope list_scope.

Local Notation "a +s b" := (String.append a b) (at level 60, right associativity).

(** [CartItem] (src/frontend/src/types/index.ts).  A [price] is a JS number,
    a binary64 float, since the getter [total] multiplies and sums prices.  A
    [quantity] is modelled as an integer: quantities only take part in [+=],
    [=], [<= 0] and the integer sum of [itemCount], all exact on the integral
    doubles below 2^53 that quantities are. *)
Record CartItem := mkItem {
  id : string; productId : string; variantId : string; name : string;
  variant : string; price : float; quantity : Z; imageUrl : string;
  icon : option string; color : option string
}.

Definition with_quantity (c : CartItem) (q : Z) : CartItem :=
  mkItem (id c) (productId c) (variantId c) (name c) (variant c) (price c) q
         (imageUrl c) (icon c) (color c).

(** [Omit<CartItem, 'id'>], the argument of [addItem] (its optional [icon]
    and [color] are always overwritten by [newItem], so they are left out). *)
Module AddArg.
Record t := mk {
  productId : string; variantId : string; name : string; variant : string;
  price : float; quantity : Z; imageUrl : string
}.
End AddArg.

(** An element of [response.result.data.cart.items] from [get_cart_state]. *)
Module Snapshot.
Record line := mk {
  product_id : string; variant_id : string; name : string; variant : string;
  price : float; quantity : Z; image_url : option string
}.
End Snapshot.

(** [PRODUCT_META] is a plain object literal used as a map: a lookup
    [PRODUCT_META[k]] finds the six own keys, and also the properties every
    object inherits from [Object.prototype] (functions or objects without
    [icon] and [color]). *)
Inductive meta := Meta (icon color : string) | Inherited.

Definition object_prototype_keys : list string :=
  ["constructor"; "__defineGetter__"; "__defineSetter__"; "hasOwnProperty";
   "__lookupGetter__"; "__lookupSetter__"; "isPrototypeOf"; "propertyIsEnumerable";
   "toString"; "valueOf"; "__proto__"; "toLocaleString"]%string.

Definition PRODUCT_META (k : string) : option meta :=
  if String.eqb k "lebron-lakers-jersey" then Some (Meta "👑" "#552583")
  else if String.eqb k "curry-warriors-jersey" then Some (Meta "🏹" "#1D428A")
  else if String.eqb k "giannis-bucks-jersey" then Some (Meta "🇬🇷" "#00471B")
  else if String.eqb k "luka-mavs-jersey" then Some (Meta "🏀" "#00538C")
  else if String.eqb k "tatum-celtics-jersey" then Some (Meta "☘️" "#007A33")
  else if String.eqb k "jordan-bulls-jersey" then Some (Meta "🐐" "#CE1141")
  else if existsb (String.eqb k) object_prototype_keys then Some Inherited
  else None.

Definition meta_icon (m : meta) : option string :=
  match m with Meta i _ => Some i | Inherited => None end.
Definition meta_color (m : meta) : option string :=
  match m with Meta _ c => Some c | Inherited => None end.

(** [a || d] on a string that may be [undefined]. *)
Definition js_or (o : option string) (d : string) : string :=
  match o with Some s => if String.eqb s "" then d else s | None => d end.

Definition option_bind {A B} (o : option A) (f : A -> option B) : option B :=
  match o with Some a => f a | None => None end.

Definition generic_icon : string := "📦".
Definition generic_color : string := "#3b82f6".

(** ** Store state: the objects of [items] live in a heap, since [backup] is a
    shallow copy [[...items.value]] that shares them with [items]. *)
Record store := mkStore {
  heap : list CartItem;          (* the CartItem objects, by address *)
  items : list nat;              (* [items.value]: addresses of its elements *)
  pendingOperations : list string (* [pendingOperations.value], a Set<string> *)
}.

(** The objects at a list of addresses. *)
Definition read (h : list CartItem) (ls : list nat) : list CartItem :=
  flat_map (fun l => match nth_error h l with Some c => [c] | None => [] end) ls.

(** What a synchronous read of [items.value] sees. *)
Definition read_items (s : store) : list CartItem := read (heap s) (items s).

Fixpoint update_nth {A} (k : nat) (f : A -> A) (l : list A) : list A :=
  match k, l with
  | O, x :: tl => f x :: tl
  | S k', x :: tl => x :: update_nth k' f tl
  | _, [] => []
  end.

Definition set_add (x : string) (s : list string) : list string :=
  if existsb (String.eqb x) s then s else s ++ [x].
Definition set_delete (x : string) (s : list string) : list string :=
  filter (fun y => negb (String.eqb x y)) s.

(** [arr.findIndex(p)] and [arr.find(p)] over the addresses of [items]. *)
Fixpoint findIndex (p : CartItem -> bool) (h : list CartItem) (ls : list nat) : option nat :=
  match ls with
  | [] => None
  | l :: rest =>
      match nth_error h l with
      | Some c => if p c then Some 0 else option_map S (findIndex p h rest)
      | None => option_map S (findIndex p h rest)
      end
  end.

Fixpoint find (p : CartItem -> bool) (h : list CartItem) (ls : list nat) : option (nat * CartItem) :=
  match ls with
  | [] => None
  | l :: rest =>
      match nth_error h l with
      | Some c => if p c then Some (l, c) else find p h rest
      | None => find p h rest
      end
  end.

(** [i => i.id !== itemId] *)
Definition other_id (h : list CartItem) (itemId : string) (l : nat) : bool :=
  match nth_error h l with Some c => negb (String.eqb (id c) itemId) | None => true end.

Definition cart_line_id (pid vid : string) : string := "cart-" +s pid +s "-" +s vid.

(** ** The work closures passed to [cartOperationsQueue.enqueue] *)
Inductive cart_work :=
| AddWork (item : AddArg.t) (sessionId : option string) (operationId : string)
| RemoveWork (itemId : string) (item : nat) (sessionId : option string) (operationId : string)
| UpdateWork (itemId : string) (quantity : Z) (item : nat) (sessionId : option string)
             (operationId : string)
| ClearWork (sessionId : option string) (operationId : string).

Definition work_session (wk : cart_work) : option string :=
  match wk with
  | AddWork _ s _ | RemoveWork _ _ s _ | UpdateWork _ _ _ s _ | ClearWork s _ => s
  end.

Definition work_opid (wk : cart_work) : string :=
  match wk with
  | AddWork _ _ o | RemoveWork _ _ _ o | UpdateWork _ _ _ _ o | ClearWork _ o => o
  end.

(** The success payloads [{ status: 'success', ... }]. *)
Inductive value :=
| Added (item : CartItem)
| Removed (item : nat)
| Updated (item : nat) (quantity : Z)
| Cleared (count : nat).

(** Errors are the values thrown by [chatApi.mcpAction]; [new Error(m)] is [m]. *)
Definition err := string.

Abbreviation qop := (@AsyncQueue.QueuedOperation cart_work).
Abbreviation outcome := (@AsyncQueue.outcome value err).
Abbreviation frame := (@AsyncQueue.frame cart_work value err).

(** A call of [chatApi.mcpAction] (the [params] are not modelled). *)
Record request := mkReq { tool_name : string; session_id : option string }.

(** Suspended [async] frames waiting on the server. *)
Inductive task :=
| WorkAtServer (t : nat) (wk : cart_work) (backup : list nat) (ret : value)
    (* the work of operation [t] at [await chatApi.mcpAction(...)] *)
| SyncAtFetch (sessionId : string) (owner : option (nat * outcome)).
    (* [syncCart] at its [await chatApi.mcpAction(get_cart_state)]; [owner]
       is the work awaiting it in its [finally], with that work's outcome *)

Inductive fetch_result :=
| FetchOk (cart_items : option (list Snapshot.line))
    (* [Some l] when [response?.result?.data?.cart] has an array [items] *)
| FetchErr (e : err).

Inductive cevent :=
| CQueue (e : @AsyncQueue.event value err)
| CRequest (r : request).

(** Synchronous part of a work, from [const backup = [...items.value]] to the
    call of [chatApi.mcpAction]. *)
Definition work_start (t : nat) (wk : cart_work) (s : store) : store * request * task :=
  let backup := items s in
  let pend := set_add (work_opid wk) (pendingOperations s) in
  match wk with
  | AddWork item sid opid =>
      let newItem :=
        mkItem (cart_line_id (AddArg.productId item) (AddArg.variantId item))
               (AddArg.productId item) (AddArg.variantId item) (AddArg.name item)
               (AddArg.variant item) (AddArg.price item) (AddArg.quantity item)
               (AddArg.imageUrl item)
               (Some (js_or (option_bind (PRODUCT_META (AddArg.productId item)) meta_icon) generic_icon))
               (Some (js_or (option_bind (PRODUCT_META (AddArg.productId item)) meta_color) generic_color)) in
      let same c := String.eqb (productId c) (AddArg.productId item)
                    && String.eqb (variantId c) (AddArg.variantId item) in
      let s' :=
        match option_bind (findIndex same (heap s) (items s)) (nth_error (items s)) with
        | Some l => mkStore (update_nth l (fun c => with_quantity c (quantity c + AddArg.quantity item)%Z) (heap s))
                            (items s) pend
        | None => mkStore (heap s ++ [newItem]) (items s ++ [List.length (heap s)]) pend
        end in
      (s', mkReq "add_to_cart" sid, WorkAtServer t wk backup (Added newItem))
  | RemoveWork itemId item sid opid =>
      (mkStore (heap s) (filter (other_id (heap s) itemId) (items s)) pend,
       mkReq "remove_from_cart" sid, WorkAtServer t wk backup (Removed item))
  | UpdateWork itemId q item sid opid =>
      let s' :=
        if (q <=? 0)%Z then mkStore (heap s) (filter (other_id (heap s) itemId) (items s)) pend
        else match find (fun c => String.eqb (id c) itemId) (heap s) (items s) with
             | Some (l, _) => mkStore (update_nth l (fun c => with_quantity c q) (heap s)) (items s) pend
             | None => mkStore (heap s) (items s) pend
             end in
      (s', mkReq "set_cart_quantity" sid, WorkAtServer t wk backup (Updated item q))
  | ClearWork sid opid =>
      (mkStore (heap s) [] pend, mkReq "clear_cart" sid,
       WorkAtServer t wk backup (Cleared (List.length backup)))
  end.

(** After the server call: [catch] restores [items.value = backup] and
    rethrows; [finally] deletes the operation id (the [await syncCart] that
    follows is [work_finally]). *)
Definition work_after_server (wk : cart_work) (backup : list nat) (ret : value)
    (reply : option err) (s : store) : store * outcome :=
  let '(s1, r) :=
    match reply with
    | None => (s, AsyncQueue.Resolved ret)
    | Some e => (mkStore (heap s) backup (pendingOperations s), AsyncQueue.Rejected e)
    end in
  (mkStore (heap s1) (items s1) (set_delete (work_opid wk) (pendingOperations s1)), r).

(** Synchronous part of [syncCart]: its two guards; [Some sid] when it goes
    on to request [get_cart_state]. *)
Definition syncCart (sessionId : option string) (s : store) : option string :=
  match sessionId with
  | None => None
  | Some sid =>
      if String.eqb sid "" then None
      else match pendingOperations s with [] => Some sid | _ :: _ => None end
  end.

Definition map_line (i : Snapshot.line) : CartItem :=
  let m := match PRODUCT_META (Snapshot.product_id i) with
           | Some m => m
           | None => Meta generic_icon generic_color
           end in
  mkItem (cart_line_id (Snapshot.product_id i) (Snapshot.variant_id i))
         (Snapshot.product_id i) (Snapshot.variant_id i) (Snapshot.name i)
         (Snapshot.variant i) (Snapshot.price i) (Snapshot.quantity i)
         (js_or (Snapshot.image_url i) "") (meta_icon m) (meta_color m).

(** Continuation of [syncCart] once the fetch settles: [items.value = mapped]
    (fresh objects) when the snapshot is well formed and no operation is
    pending; a failed fetch is only logged by the [catch]. *)
Definition syncCart_resume (resp : fetch_result) (s : store) : store :=
  match resp with
  | FetchOk (Some lines) =>
      match pendingOperations s with
      | [] => mkStore (heap s ++ map map_line lines)
                      (seq (List.length (heap s)) (List.length lines)) (pendingOperations s)
      | _ :: _ => s
      end
  | FetchOk None | FetchErr _ => s
  end.

(** The computed getters [itemCount], [total] and [isEmpty], on what a read
    of [items.value] sees ([reduce] is a left fold). *)
Definition itemCount (s : store) : Z :=
  fold_left (fun total item => (total + quantity item)%Z) (read_items s) 0%Z.

(** A quantity read as a JS number: the double nearest to the integer. *)
Definition number_of_Z (z : Z) : float :=
  FloatOps.SF2Prim (SpecFloat.binary_normalize FloatOps.prec FloatOps.emax z 0 false).

(** [total] adds in binary64 arithmetic, rounding at each [*] and [+]. *)
Definition total (s : store) : float :=
  fold_left (fun total item => (total + price item * number_of_Z (quantity item))%float)
            (read_items s) 0%float.

Definition isEmpty (s : store) : bool := Nat.eqb (List.length (items s)) 0.

(** ** The application: store, queue and suspended frames *)
Record world := mkWorld {
  st : store;
  qs : @AsyncQueue.state cart_work;
  loops : list frame;
  next : nat;
  tasks : list task;
  log : list cevent
}.

Definition cart_init : world :=
  mkWorld (mkStore [] [] []) (AsyncQueue.mkQ [] false None) [] 0 [] [].

Definition start_op (o : qop) (w : world) : world :=
  let '(s', req, tk) := work_start (AsyncQueue.ticket o) (AsyncQueue.operation o) (st w) in
  mkWorld s' (qs w) (loops w) (next w) (tasks w ++ [tk]) (log w ++ [CRequest req]).

(** [cartOperationsQueue.enqueue(work, operationId)] *)
Definition enqueue_work (wk : cart_work) (operationId : string) (w : world) : world :=
  let o := AsyncQueue.mkOp operationId wk (next w) in
  let lg := log w ++ [CQueue (AsyncQueue.EvEnqueue (next w))] in
  match AsyncQueue.enqueue o (qs w) with
  | (q', Some o') =>
      start_op o' (mkWorld (st w) q' (loops w ++ [AsyncQueue.Awaiting o']) (S (next w)) (tasks w)
                           (lg ++ [CQueue (AsyncQueue.EvStart (AsyncQueue.ticket o'))]))
  | (q', None) => mkWorld (st w) q' (loops w) (S (next w)) (tasks w) lg
  end.

(** The actions; [now] is the decimal text of [Date.now()]. *)
Definition addItem (item : AddArg.t) (sessionId : option string) (now : string) (w : world) : world :=
  let operationId := "add-" +s AddArg.productId item +s "-" +s AddArg.variantId item +s "-" +s now in
  enqueue_work (AddWork item sessionId operationId) operationId w.

Definition removeItem (itemId : string) (sessionId : option string) (now : string) (w : world) : world :=
  match find (fun c => String.eqb (id c) itemId) (heap (st w)) (items (st w)) with
  | None => w
  | Some (l, item) =>
      let operationId := "remove-" +s productId item +s "-" +s variantId item +s "-" +s now in
      enqueue_work (RemoveWork itemId l sessionId operationId) operationId w
  end.

Definition updateQuantity (itemId : string) (quantity : Z) (sessionId : option string) (now : string)
    (w : world) : world :=
  match find (fun c => String.eqb (id c) itemId) (heap (st w)) (items (st w)) with
  | None => w
  | Some (l, item) =>
      let operationId := "update-" +s productId item +s "-" +s variantId item +s "-" +s now in
      enqueue_work (UpdateWork itemId quantity l sessionId operationId) operationId w
  end.

Definition clearCart (sessionId : option string) (now : string) (w : world) : world :=
  let operationId := "clear-" +s now in
  enqueue_work (ClearWork sessionId operationId) operationId w.

(** The work of operation [t] settles: its drain-loop frame becomes resumable. *)
Definition settle_frames (t : nat) (r : outcome) (ls : list frame) : list frame :=
  map (fun f => match f with
                | AsyncQueue.Awaiting o =>
                    if Nat.eqb (AsyncQueue.ticket o) t then AsyncQueue.Resumable o r else f
                | _ => f
                end) ls.

Definition work_settled (t : nat) (r : outcome) (w : world) : world :=
  mkWorld (st w) (qs w) (settle_frames t r (loops w)) (next w) (tasks w)
          (log w ++ [CQueue (AsyncQueue.EvSettle t r)]).

(** [await syncCart(sessionId)] in a work's [finally]. *)
Definition work_finally (t : nat) (wk : cart_work) (r : outcome) (w : world) : world :=
  match syncCart (work_session wk) (st w) with
  | Some sid =>
      mkWorld (st w) (qs w) (loops w) (next w) (tasks w ++ [SyncAtFetch sid (Some (t, r))])
              (log w ++ [CRequest (mkReq "get_cart_state" (Some sid))])
  | None => work_settled t r w
  end.

Inductive caction :=
| CallAddItem (item : AddArg.t) (sessionId : option string) (now : string)
| CallRemoveItem (itemId : string) (sessionId : option string) (now : string)
| CallUpdateQuantity (itemId : string) (quantity : Z) (sessionId : option string) (now : string)
| CallClearCart (sessionId : option string) (now : string)
| CallSyncCart (sessionId : option string)
| CallQueueClear
| MutationReply (k : nat) (reply : option err) (* the server answers the work of task [k] *)
| FetchReply (k : nat) (resp : fetch_result)   (* the server answers the fetch of task [k] *)
| ResumeLoop (k : nat).                        (* the microtask of drain frame [k] runs *)

Definition cstep (w : world) (a : caction) : option world :=
  match a with
  | CallAddItem item sid now => Some (addItem item sid now w)
  | CallRemoveItem itemId sid now => Some (removeItem itemId sid now w)
  | CallUpdateQuantity itemId q sid now => Some (updateQuantity itemId q sid now w)
  | CallClearCart sid now => Some (clearCart sid now w)
  | CallSyncCart sid =>
      Some (match syncCart sid (st w) with
            | Some s => mkWorld (st w) (qs w) (loops w) (next w) (tasks w ++ [SyncAtFetch s None])
                                (log w ++ [CRequest (mkReq "get_cart_state" (Some s))])
            | None => w
            end)
  | CallQueueClear =>
      let (q', cancelled) := AsyncQueue.clear (qs w) in
      Some (mkWorld (st w) q' (loops w) (next w) (tasks w)
              (log w ++ map (fun o => CQueue (AsyncQueue.EvCancel (AsyncQueue.ticket o)
                                                                 AsyncQueue.cancel_msg)) cancelled))
  | MutationReply k reply =>
      match nth_error (tasks w) k with
      | Some (WorkAtServer t wk backup ret) =>
          let (s', r) := work_after_server wk backup ret reply (st w) in
          Some (work_finally t wk r (mkWorld s' (qs w) (loops w) (next w) (remove_nth k (tasks w)) (log w)))
      | _ => None
      end
  | FetchReply k resp =>
      match nth_error (tasks w) k with
      | Some (SyncAtFetch sid owner) =>
          let w1 := mkWorld (syncCart_resume resp (st w)) (qs w) (loops w) (next w)
                            (remove_nth k (tasks w)) (log w) in
          Some (match owner with Some (t, r) => work_settled t r w1 | None => w1 end)
      | _ => None
      end
  | ResumeLoop k =>
      match nth_error (loops w) k with
      | Some (AsyncQueue.Resumable o r) =>
          let lg := log w ++ [CQueue (AsyncQueue.EvDeliver (AsyncQueue.ticket o) r)] in
          match AsyncQueue.resume (qs w) with
          | (q', Some o') =>
              Some (start_op o' (mkWorld (st w) q' (replace_nth k (AsyncQueue.Awaiting o') (loops w))
                                         (next w) (tasks w)
                                         (lg ++ [CQueue (AsyncQueue.EvStart (AsyncQueue.ticket o'))])))
          | (q', None) => Some (mkWorld (st w) q' (remove_nth k (loops w)) (next w) (tasks w) lg)
          end
      | _ => None
      end
  end.

Fixpoint crun (w : world) (acts : list caction) : option world :=
  match acts with
  | [] => Some w
  | a :: rest => match cstep w a with Some w' => crun w' rest | None => None end
  end.

Inductive creach : world -> Prop :=
| creach_init : creach cart_init
| creach_step w a w' : creach w -> cstep w a = Some w' -> creach w'.

(** ** Sample data to run the store on *)
Definition demo_jersey : AddArg.t :=
  AddArg.mk "curry-warriors-jersey" "M" "Curry Jersey" "M" 120%float 1%Z "".
Definition demo_other : AddArg.t :=
  AddArg.mk "luka-mavs-jersey" "L" "Doncic Jersey" "L" 110%float 1%Z "".

Definition run_from (w : world) (acts : list caction) : world :=
  match crun w acts with Some w' => w' | None => w end.

(** One add that the server accepts, without a session: the queue is idle
    again and the cart holds one line. *)
Definition demo_settled : list caction :=
  [CallAddItem demo_jersey None "1"; MutationReply 0 None; ResumeLoop 0].

Definition demo_idle : world := run_from cart_init demo_settled.

(** An add with a session whose server call is still outstanding. *)
Definition demo_busy : world :=
  run_from cart_init [CallAddItem demo_jersey (Some "s"%string) "1"].

(** A resync requested on an idle store, and its fetch answered. *)
Definition demo_sync_call : world := run_from cart_init [CallSyncCart (Some "s"%string)].

(** A snapshot line, and an add, for the product id ["toString"], a key that
    [PRODUCT_META] does not list but every object inherits. *)
Definition demo_proto_line : Snapshot.line :=
  Snapshot.mk "toString" "M" "Mystery" "M" 50%float 1%Z None.
Definition demo_proto_item : AddArg.t :=
  AddArg.mk "toString" "M" "Mystery" "M" 50%float 1%Z "".
Definition demo_proto_sync : world :=
  run_from demo_sync_call [FetchReply 0 (FetchOk (Some [demo_proto_line]))].
Definition demo_proto_add : world :=
  run_from cart_init [CallAddItem demo_proto_item None "1"].

(** ** Specification-side definitions *)

(** The optimistic add as the spec words it: the first line with the same
    (productId, variantId) pair has its quantity incremented, and when there
    is none the new line [nl] is appended. *)
Fixpoint add_line_spec (item : AddArg.t) (nl : CartItem) (cur : list CartItem) : list CartItem :=
  match cur with
  | [] => [nl]
  | c :: rest =>
      if String.eqb (productId c) (AddArg.productId item)
         && String.eqb (variantId c) (AddArg.variantId item)
      then with_quantity c (quantity c + AddArg.quantity item)%Z :: rest
      else c :: add_line_spec item nl rest
  end.

(** Setting the quantity of the first line with a given id, the others
    left as they are. *)
Fixpoint set_quantity_first (itemId : string) (q : Z) (cur : list CartItem) : list CartItem :=
  match cur with
  | [] => []
  | c :: rest =>
      if String.eqb (id c) itemId then with_quantity c q :: rest
      else c :: set_quantity_first itemId q rest
  end.

(** The icon and color a product gets: its [PRODUCT_META] entry, the generic
    ones otherwise. *)
Definition product_icon (pid : string) : string :=
  match PRODUCT_META pid with Some (Meta i _) => i | _ => generic_icon end.

Definition product_color (pid : string) : string :=
  match PRODUCT_META pid with Some (Meta _ c) => c | _ => generic_color end.

(** ** Invariant of the reachable worlds *)

(** The frames that belong to the running operation: its work waiting on the
    server, or the [syncCart] awaited in its [finally]. *)
Definition is_active (tk : task) : bool :=
  match tk with
  | WorkAtServer _ _ _ _ => true
  | SyncAtFetch _ (Some _) => true
  | SyncAtFetch _ None => false
  end.

Definition active_tasks (tks : list task) : list task := filter is_active tks.

(** An address list of [items.value] or of a [backup]: no object twice, and
    every address allocated. *)
Definition wf_locs (n : nat) (ls : list nat) : Prop :=
  NoDup ls /\ Forall (fun l => l < n) ls.

Definition shape (w : world) : Prop :=
  match loops w with
  | [] =>
      AsyncQueue.isProcessing (qs w) = false /\ AsyncQueue.queue (qs w) = []
      /\ active_tasks (tasks w) = [] /\ pendingOperations (st w) = []
  | [AsyncQueue.Awaiting o] =>
      AsyncQueue.isProcessing (qs w) = true /\
      ((exists b ret, active_tasks (tasks w)
                       = [WorkAtServer (AsyncQueue.ticket o) (AsyncQueue.operation o) b ret]
                     /\ pendingOperations (st w) = [work_opid (AsyncQueue.operation o)])
       \/ (exists sid r, active_tasks (tasks w) = [SyncAtFetch sid (Some (AsyncQueue.ticket o, r))]
                       /\ pendingOperations (st w) = []))
  | [AsyncQueue.Resumable o r] =>
      AsyncQueue.isProcessing (qs w) = true /\ active_tasks (tasks w) = []
      /\ pendingOperations (st w) = []
  | _ => False
  end.

Record CInv (w : world) : Prop := {
  ci_items : wf_locs (List.length (heap (st w))) (items (st w));
  ci_backup : forall t wk b ret, In (WorkAtServer t wk b ret) (tasks w) ->
                                 wf_locs (List.length (heap (st w))) b;
  ci_shape : shape w
}.

End CartStore.

(** * Proofs about the queue *)
Module QueueProofs.
Import AsyncQueue.

Lemma StronglySorted_snoc {A} (R : A -> A -> Prop) l y :
  StronglySorted R l -> (forall x, In x l -> R x y) -> StronglySorted R (l ++ [y]).
Proof.
  induction l as [|a l IH]; intros Hs Hlt; simpl.
  - constructor; [constructor | constructor].
  - inversion Hs; subst. constructor.
    + apply IH; auto. intros x Hx. apply Hlt. now right.
    + apply Forall_app. split; [assumption|]. constructor; [apply Hlt; now left | constructor].
Qed.

Section Proofs.
Context {W V E : Type} (mk_error : string -> E).

Lemma started_app t (tr l : list (@event V E)) :
  started t (tr ++ l) <-> started t tr \/ In (EvStart t) l.
Proof. unfold started. apply in_app_iff. Qed.

Lemma settled_app t (tr l : list (@event V E)) :
  settled t (tr ++ l) <-> settled t tr \/ exists r, In (EvSettle t r) l.
Proof.
  unfold settled. split.
  - intros [r Hr]. apply in_app_iff in Hr as [Hr|Hr]; eauto.
  - intros [[r Hr]|[r Hr]]; exists r; apply in_app_iff; auto.
Qed.

Lemma cancelled_app t (tr l : list (@event V E)) :
  cancelled t (tr ++ l) <-> cancelled t tr \/ exists e, In (EvCancel t e) l.
Proof.
  unfold cancelled. split.
  - intros [r Hr]. apply in_app_iff in Hr as [Hr|Hr]; eauto.
  - intros [[r Hr]|[r Hr]]; exists r; apply in_app_iff; auto.
Qed.

Lemma inv_init : Inv (@w0 W V E).
Proof.
  constructor; simpl; unfold started, settled, cancelled; simpl.
  - left. auto.
  - contradiction.
  - constructor.
  - contradiction.
  - contradiction.
  - intros t [r []].
  - intros t [r []].
  - intros t Ht. lia.
  - contradiction.
Qed.

Ltac clean := repeat rewrite ?started_app, ?settled_app, ?cancelled_app in *; simpl in *.

Lemma inv_enqueue (w w' : @world W V E) i wk :
  Inv w -> qstep mk_error w (AEnqueue i wk) = Some w' -> Inv w'.
Proof.
  intros HI Hst. destruct HI as [Hshape Hpend Hsort Hframe Hstart Hsett Hcanc Hcover Hdel].
  destruct w as [[qu isP act] ls n tr]. simpl in *.
  unfold qstep, enqueue, processQueue, loop_head in Hst. simpl in Hst.
  destruct isP.
  - (* the queue is draining: the operation is only pushed *)
    simpl in Hst. injection Hst as <-.
    destruct Hshape as [[_ [Habs _]] | [f [Hls _]]]; [discriminate|]. subst ls.
    constructor; simpl.
    + right. eauto.
    + intros o Ho. apply in_app_iff in Ho as [Ho|[<-|[]]].
      * destruct (Hpend o Ho) as (H1 & H2 & H3 & H4). clean.
        repeat split; [firstorder congruence|firstorder congruence|lia|].
        intros t Ht. clean. destruct Ht as [Ht|[Ht|[]]]; [auto|discriminate].
      * simpl. clean. repeat split.
        -- intros [Ht|[Ht|[]]]; [|discriminate]. apply Hstart in Ht. lia.
        -- intros [Ht|[e [Ht|[]]]]; [|discriminate]. apply Hcanc in Ht. lia.
        -- lia.
        -- intros t Ht. clean. destruct Ht as [Ht|[Ht|[]]]; [|discriminate]. apply Hstart in Ht. lia.
    + apply StronglySorted_snoc; [assumption|].
      intros x Hx. simpl. apply Hpend in Hx. lia.
    + intros f' Hf'. destruct (Hframe f' Hf') as [H1 H2]. clean. split; [auto|].
      destruct f' as [o|o r]; simpl in *; clean; [|apply in_app_iff; auto].
      intros [Hs|[r [Hr|[]]]]; [auto|discriminate].
    + intros t Ht. clean. destruct Ht as [Ht|[Ht|[]]]; [|discriminate].
      destruct (Hstart t Ht) as [H1 [H2|H2]]; split; [lia| |lia|]; auto.
    + intros t Ht. clean. destruct Ht as [Ht|[r [Ht|[]]]]; [|discriminate]. auto.
    + intros t Ht. clean. destruct Ht as [Ht|[e [Ht|[]]]]; [|discriminate].
      apply Hcanc in Ht. lia.
    + intros t Ht. destruct (Nat.eq_dec t n) as [->|Hne].
      * left. exists (mkOp i wk n). split; [apply in_app_iff; right; now left|reflexivity].
      * destruct (Hcover t ltac:(lia)) as [[o [Ho Ht']]|[Hs|Hc]].
        -- left. exists o. split; [apply in_app_iff; now left|assumption].
        -- right; left. clean. auto.
        -- right; right. clean. auto.
    + intros t r Ht. apply in_app_iff in Ht as [Ht|[Ht|[]]]; [|discriminate].
      apply in_app_iff. left. auto.
  - (* the queue is idle: the work is called inside [enqueue] *)
    destruct Hshape as [[Hls [_ Hqu]] | [f [_ Habs]]]; [|discriminate]. subst ls qu.
    simpl in Hst. injection Hst as <-.
    replace ((tr ++ [EvEnqueue n]) ++ [EvStart n]) with (tr ++ [EvEnqueue n; EvStart n])
      by (rewrite <- app_assoc; reflexivity).
    constructor; simpl.
    + right. eauto.
    + contradiction.
    + constructor.
    + intros f [<-|[]]. simpl. clean. split.
      * right. right. now left.
      * intros [Hs|[r Hr]].
        -- apply Hsett, Hstart in Hs. lia.
        -- destruct Hr as [Hr|[Hr|[]]]; discriminate.
    + intros t Ht. clean.
      destruct Ht as [Ht|[Ht|[Ht|[]]]]; [|discriminate|].
      * destruct (Hstart t Ht) as [H1 [H2|[f [[] _]]]]. split; [lia|]. left. clean. auto.
      * injection Ht as <-. split; [lia|]. right. exists (Awaiting (mkOp i wk n)). simpl. auto.
    + intros t Ht. clean.
      destruct Ht as [Ht|[r [Ht|[Ht|[]]]]]; try discriminate. auto.
    + intros t Ht. clean.
      destruct Ht as [Ht|[e [Ht|[Ht|[]]]]]; try discriminate. apply Hcanc in Ht. lia.
    + intros t Ht. clean.
      destruct (Nat.eq_dec t n) as [->|Hne].
      * right. left. right. right. now left.
      * destruct (Hcover t ltac:(lia)) as [[o [[] _]]|[Hs|Hc]]; auto.
    + intros t r Ht. apply in_app_iff in Ht as [Ht|[Ht|[Ht|[]]]]; try discriminate.
      apply in_app_iff. left. auto.
Qed.

Lemma inv_settle (w w' : @world W V E) k r :
  Inv w -> qstep mk_error w (ASettle k r) = Some w' -> Inv w'.
Proof.
  intros HI Hst. destruct HI as [Hshape Hpend Hsort Hframe Hstart Hsett Hcanc Hcover Hdel].
  destruct w as [[qu isP act] ls n tr]. simpl in *. unfold qstep in Hst. simpl in Hst.
  destruct (nth_error ls k) as [[o|o r0]|] eqn:Hk; try discriminate.
  injection Hst as <-.
  destruct Hshape as [[-> [Hp Hq]] | [f [-> Hp]]]; [destruct k; discriminate|].
  destruct k as [|k]; [|destruct k; discriminate]. simpl in Hk. injection Hk as ->. simpl.
  destruct (Hframe (Awaiting o) (or_introl eq_refl)) as [Hso Hno]. simpl in Hno.
  constructor; simpl.
  - right. eauto.
  - intros o' Ho'. destruct (Hpend o' Ho') as (H1&H2&H3&H4). repeat split.
    + intros Ht; clean. destruct Ht as [Ht|[Ht|[]]]; [auto|discriminate].
    + intros Ht; clean. destruct Ht as [Ht|[e [Ht|[]]]]; [auto|discriminate].
    + lia.
    + intros t Ht; clean. destruct Ht as [Ht|[Ht|[]]]; [auto|discriminate].
  - assumption.
  - intros f [<-|[]]. simpl. split.
    + clean. auto.
    + apply in_app_iff. right. now left.
  - intros t Ht. clean. destruct Ht as [Ht|[Ht|[]]]; [|discriminate].
    destruct (Hstart t Ht) as [H1 [H2|[f [[<-|[]] H3]]]].
    + split; [lia|]. left. clean. auto.
    + split; [lia|]. right. exists (Resumable o r). simpl in *. auto.
  - intros t Ht. clean. destruct Ht as [Ht|[r' [Ht|[]]]].
    + left. auto.
    + injection Ht as <- <-. left. auto.
  - intros t Ht. clean. destruct Ht as [Ht|[e [Ht|[]]]]; [auto|discriminate].
  - intros t Ht. destruct (Hcover t Ht) as [H|[H|H]].
    + left. auto.
    + right; left. clean. auto.
    + right; right. clean. auto.
  - intros t r' Ht. apply in_app_iff in Ht as [Ht|[Ht|[]]]; [|discriminate].
    apply in_app_iff. left. auto.
Qed.

Lemma inv_resume (w w' : @world W V E) k :
  Inv w -> qstep mk_error w (AResume k) = Some w' -> Inv w'.
Proof.
  intros HI Hst. destruct HI as [Hshape Hpend Hsort Hframe Hstart Hsett Hcanc Hcover Hdel].
  destruct w as [[qu isP act] ls n tr]. simpl in *. unfold qstep in Hst. simpl in Hst.
  destruct (nth_error ls k) as [[o|o r]|] eqn:Hk; try discriminate.
  destruct Hshape as [[-> [Hp Hq]] | [f [-> Hp]]]; [destruct k; discriminate|].
  destruct k as [|k]; [|destruct k; discriminate]. simpl in Hk. injection Hk as ->.
  destruct (Hframe (Resumable o r) (or_introl eq_refl)) as [Hso Hse]. simpl in Hse.
  unfold resume, loop_head in Hst. simpl in Hst.
  destruct qu as [|o' rest]; injection Hst as <-; simpl.
  - (* the queue is empty: the loop exits *)
    constructor; simpl.
    + left. auto.
    + contradiction.
    + constructor.
    + contradiction.
    + intros t Ht. clean. destruct Ht as [Ht|[Ht|[]]]; [|discriminate].
      destruct (Hstart t Ht) as [H1 [H2|[f [[<-|[]] H3]]]].
      * split; [lia|]. left. clean. auto.
      * simpl in H3. subst t. split; [lia|]. left. clean. left. exists r. exact Hse.
    + intros t Ht. clean. destruct Ht as [Ht|[r' [Ht|[]]]]; [|discriminate]. left. auto.
    + intros t Ht. clean. destruct Ht as [Ht|[e [Ht|[]]]]; [auto|discriminate].
    + intros t Ht. destruct (Hcover t Ht) as [[x [[] _]]|[H|H]].
      * right; left. clean. auto.
      * right; right. clean. auto.
    + intros t r' Ht. apply in_app_iff in Ht as [Ht|[Ht|[]]].
      * apply in_app_iff. left. auto.
      * injection Ht as <- <-. apply in_app_iff. left. auto.
  - (* the head of the queue starts *)
    replace ((tr ++ [EvDeliver (ticket o) r]) ++ [EvStart (ticket o')])
      with (tr ++ [EvDeliver (ticket o) r; EvStart (ticket o')])
      by (rewrite <- app_assoc; reflexivity).
    inversion Hsort as [|? ? Hsort' Hfa]; subst. rewrite Forall_forall in Hfa.
    destruct (Hpend o' (or_introl eq_refl)) as (P1&P2&P3&P4).
    constructor; simpl.
    + right; eauto.
    + intros x Hx. destruct (Hpend x (or_intror Hx)) as (H1&H2&H3&H4).
      specialize (Hfa x Hx). simpl in Hfa. repeat split.
      * intros Ht; clean. destruct Ht as [Ht|[Ht|[Ht|[]]]]; [auto|discriminate|injection Ht; lia].
      * intros Ht; clean. destruct Ht as [Ht|[e [Ht|[Ht|[]]]]]; [auto|discriminate|discriminate].
      * lia.
      * intros t Ht; clean. destruct Ht as [Ht|[Ht|[Ht|[]]]]; [auto|discriminate|injection Ht; lia].
    + assumption.
    + intros f [<-|[]]. simpl. split.
      * clean. auto.
      * intros Hs. clean. destruct Hs as [Hs|[r' [Hs|[Hs|[]]]]]; try discriminate.
        apply P1, Hsett. exact Hs.
    + intros t Ht. clean. destruct Ht as [Ht|[Ht|[Ht|[]]]]; [|discriminate|].
      * destruct (Hstart t Ht) as [H1 [H2|[f [[<-|[]] H3]]]].
        -- split; [lia|]. left. clean. auto.
        -- simpl in H3. subst t. split; [lia|]. left. clean. left. exists r. exact Hse.
      * injection Ht as <-. split; [lia|]. right. exists (Awaiting o'). simpl. auto.
    + intros t Ht. clean. destruct Ht as [Ht|[r' [Ht|[Ht|[]]]]]; try discriminate. left. auto.
    + intros t Ht. clean. destruct Ht as [Ht|[e [Ht|[Ht|[]]]]]; try discriminate. auto.
    + intros t Ht. destruct (Hcover t Ht) as [[x [[<-|Hx] <-]]|[H|H]].
      * right; left. clean. right; right; now left.
      * left. exists x. auto.
      * right; left. clean. auto.
      * right; right. clean. auto.
    + intros t r' Ht. apply in_app_iff in Ht as [Ht|[Ht|[Ht|[]]]]; try discriminate.
      * apply in_app_iff. left. auto.
      * injection Ht as <- <-. apply in_app_iff. left. auto.
Qed.

Lemma inv_clear (w w' : @world W V E) :
  Inv w -> qstep mk_error w AClear = Some w' -> Inv w'.
Proof.
  intros HI Hst. destruct HI as [Hshape Hpend Hsort Hframe Hstart Hsett Hcanc Hcover Hdel].
  destruct w as [[qu isP act] ls n tr]. simpl in *. unfold qstep, clear in Hst. simpl in Hst.
  injection Hst as <-.
  set (cs := map (fun o => EvCancel (ticket o) (mk_error cancel_msg)) qu).
  assert (Hcs : forall x, In x cs -> exists o, In o qu /\ x = EvCancel (ticket o) (mk_error cancel_msg)).
  { intros x Hx. apply in_map_iff in Hx as [o [<- Ho]]. eauto. }
  constructor; simpl.
  - destruct Hshape as [[Hl [Hp Hq]]|[f [Hl Hp]]]; [left|right]; eauto.
  - contradiction.
  - constructor.
  - intros f Hf. destruct (Hframe f Hf) as [H1 H2]. split.
    + apply started_app. auto.
    + destruct f as [o|o r]; simpl in *.
      * intros Hs. apply settled_app in Hs as [Hs|[r [o' [_ Hx]]%Hcs]]; [auto|discriminate].
      * apply in_app_iff. auto.
  - intros t Ht. apply started_app in Ht as [Ht|[o' [_ Hx]]%Hcs]; [|discriminate].
    destruct (Hstart t Ht) as [H1 [H2|H2]]; split; auto.
    left. apply settled_app. auto.
  - intros t Ht. apply settled_app in Ht as [Ht|[r [o' [_ Hx]]%Hcs]]; [|discriminate].
    apply started_app. auto.
  - intros t Ht. apply cancelled_app in Ht as [Ht|[e [o' [Ho' Hx]]%Hcs]]; [auto|].
    injection Hx as -> _. apply Hpend in Ho'. lia.
  - intros t Ht. destruct (Hcover t Ht) as [[o [Ho <-]]|[H|H]].
    + right; right. apply cancelled_app. right. exists (mk_error cancel_msg).
      apply in_map_iff. exists o. auto.
    + right; left. apply started_app. auto.
    + right; right. apply cancelled_app. auto.
  - intros t r Ht. apply in_app_iff in Ht as [Ht|[o' [_ Hx]]%Hcs]; [|discriminate].
    apply in_app_iff. auto.
Qed.

Lemma inv_step (w w' : @world W V E) a :
  Inv w -> qstep mk_error w a = Some w' -> Inv w'.
Proof.
  destruct a; [apply inv_enqueue|apply inv_settle|apply inv_resume|apply inv_clear].
Qed.

Lemma reach_inv (w : @world W V E) : reach mk_error w -> Inv w.
Proof.
  induction 1; [apply inv_init|eapply inv_step; eauto].
Qed.

Lemma app_cons_split {A} (l1 l2 l3 l4 : list A) x :
  l1 ++ x :: l2 = l3 ++ l4 ->
  (exists l2', l3 = l1 ++ x :: l2' /\ l2 = l2' ++ l4) \/
  (exists l1', l1 = l3 ++ l1' /\ l4 = l1' ++ x :: l2).
Proof.
  revert l3. induction l1 as [|a l1 IH]; intros l3 H; destruct l3 as [|b l3]; simpl in *.
  - right. exists []. auto.
  - injection H as -> ->. left. exists l3. auto.
  - right. exists (a :: l1). auto.
  - injection H as -> H. destruct (IH l3 H) as [[l2' [-> ->]]|[l1' [-> ->]]].
    + left. exists l2'. auto.
    + right. exists l1'. auto.
Qed.

(** Either the start event was already logged before the step, or the step
    starts [b] and every operation enqueued before [b] has settled or was
    cancelled, and every operation that started has settled. *)
Lemma start_step (w w' : @world W V E) a t1 b t2 :
  Inv w -> qstep mk_error w a = Some w' ->
  trace w' = t1 ++ EvStart b :: t2 ->
  (exists t2', trace w = t1 ++ EvStart b :: t2') \/
  ((forall x, x < b -> (started x t1 /\ settled x t1) \/ cancelled x t1) /\
   (forall x, started x t1 -> settled x t1)).
Proof.
  intros HI Hst Htr.
  destruct HI as [Hshape Hpend Hsort Hframe Hstart Hsett Hcanc Hcover Hdel].
  destruct w as [[qu isP act] ls n tr]; simpl in *.
  destruct a as [i wk|k r|k|]; unfold qstep in Hst; simpl in Hst.
  - unfold enqueue, processQueue, loop_head in Hst. simpl in Hst. destruct isP; simpl in Hst.
    + injection Hst as <-. simpl in Htr.
      destruct (app_cons_split _ _ _ _ _ (eq_sym Htr)) as [[l2' [Hl _]]|[l1 [Ht1 Hl]]]; [left; exists l2'; exact Hl|subst t1].
      destruct l1 as [|e [|e' l1]]; simpl in Hl; try discriminate.
      all: injection Hl as _ Hl; destruct l1; discriminate.
    + destruct Hshape as [[-> [_ ->]]|[f [_ Habs]]]; [|discriminate]. simpl in Hst.
      injection Hst as <-. simpl in Htr. rewrite <- app_assoc in Htr. simpl in Htr.
      destruct (app_cons_split _ _ _ _ _ (eq_sym Htr)) as [[l2' [Hl _]]|[l1 [Ht1 Hl]]]; [left; exists l2'; exact Hl|right; subst t1].
      destruct l1 as [|e [|e' l1]]; simpl in Hl; try discriminate.
      2:{ injection Hl as _ _ Hl. destruct l1; discriminate. }
      injection Hl as He Hb Ht2; subst. split.
      * intros x Hx. destruct (Hcover x Hx) as [[o [[] _]]|[Hs|Hc]].
        -- destruct (Hstart x Hs) as [_ [Hse|[f [[] _]]]].
           left. rewrite started_app, settled_app. auto.
        -- right. apply cancelled_app. auto.
      * intros x Hx. apply started_app in Hx as [Hx|[Hx|[]]]; [|discriminate].
        destruct (Hstart x Hx) as [_ [Hse|[f [[] _]]]]. apply settled_app. auto.
  - destruct (nth_error ls k) as [[o|o r0]|]; try discriminate. injection Hst as <-. simpl in Htr.
    destruct (app_cons_split _ _ _ _ _ (eq_sym Htr)) as [[l2' [Hl _]]|[l1 [Ht1 Hl]]]; [left; exists l2'; exact Hl|subst t1].
    destruct l1 as [|e [|e' l1]]; simpl in Hl; try discriminate.
    all: injection Hl as _ Hl; destruct l1; discriminate.
  - destruct (nth_error ls k) as [[o|o r]|] eqn:Hk; try discriminate.
    destruct Hshape as [[-> [Hp Hq]] | [f [-> Hp]]]; [destruct k; discriminate|].
    destruct k as [|k]; [|destruct k; discriminate]. simpl in Hk. injection Hk as ->.
    destruct (Hframe (Resumable o r) (or_introl eq_refl)) as [Hso Hse]. simpl in Hse.
    unfold resume, loop_head in Hst. simpl in Hst.
    destruct qu as [|o' rest]; injection Hst as <-; simpl in Htr.
    + destruct (app_cons_split _ _ _ _ _ (eq_sym Htr)) as [[l2' [Hl _]]|[l1 [Ht1 Hl]]]; [left; exists l2'; exact Hl|subst t1].
      destruct l1 as [|e [|e' l1]]; simpl in Hl; try discriminate.
      all: injection Hl as _ Hl; destruct l1; discriminate.
    + rewrite <- app_assoc in Htr. simpl in Htr.
      destruct (app_cons_split _ _ _ _ _ (eq_sym Htr)) as [[l2' [Hl _]]|[l1 [Ht1 Hl]]]; [left; exists l2'; exact Hl|right; subst t1].
      destruct l1 as [|e [|e' l1]]; simpl in Hl; try discriminate.
      2:{ injection Hl as _ _ Hl. destruct l1; discriminate. }
      injection Hl as He Hb Ht2; subst.
      inversion Hsort as [|? ? Hsort' Hfa]; subst. rewrite Forall_forall in Hfa.
      destruct (Hpend o' (or_introl eq_refl)) as (P1&P2&P3&P4).
      assert (Hdone : forall x, started x tr -> settled x tr).
      { intros x Hx. destruct (Hstart x Hx) as [_ [Hs|[f [[<-|[]] Hf]]]]; [auto|].
        simpl in Hf. subst x. exists r. exact Hse. }
      split.
      * intros x Hx. destruct (Hcover x ltac:(lia)) as [[o2 [[<-|Ho2] <-]]|[Hs|Hc]].
        -- lia.
        -- apply Hfa in Ho2. simpl in Ho2. lia.
        -- left. rewrite started_app, settled_app. auto.
        -- right. apply cancelled_app. auto.
      * intros x Hx. apply started_app in Hx as [Hx|[Hx|[]]]; [|discriminate].
        apply settled_app. auto.
  - unfold clear in Hst. injection Hst as <-. simpl in Htr.
    destruct (app_cons_split _ _ _ _ _ (eq_sym Htr)) as [[l2' [Hl _]]|[l1 [Ht1 Hl]]]; [left; exists l2'; exact Hl|subst t1].
    assert (Hin : In (@EvStart V E b) (map (fun o => EvCancel (ticket o) (mk_error cancel_msg)) qu)).
    { rewrite Hl. apply in_app_iff. right. now left. }
    apply in_map_iff in Hin as [o [Ho _]]. discriminate.
Qed.

Lemma start_prefix (w : @world W V E) :
  reach mk_error w -> forall t1 b t2, trace w = t1 ++ EvStart b :: t2 ->
  (forall x, x < b -> (started x t1 /\ settled x t1) \/ cancelled x t1) /\
  (forall x, started x t1 -> settled x t1).
Proof.
  induction 1 as [|w a w' Hr IH Hst]; intros t1 b t2 Htr.
  - simpl in Htr. destruct t1; discriminate.
  - destruct (start_step w w' a t1 b t2 (reach_inv w Hr) Hst Htr) as [[t2' H]|H].
    + exact (IH t1 b t2' H).
    + exact H.
Qed.

Lemma run_reach (w w' : @world W V E) acts :
  reach mk_error w -> run mk_error w acts = Some w' -> reach mk_error w'.
Proof.
  revert w. induction acts as [|a acts IH]; intros w Hr Hrun; simpl in Hrun.
  - injection Hrun as <-. exact Hr.
  - destruct (qstep mk_error w a) as [w1|] eqn:Hst; [|discriminate].
    exact (IH w1 (reach_step _ w a w1 Hr Hst) Hrun).
Qed.

Lemma enq_tickets_app (l1 l2 : list (@event V E)) :
  enq_tickets (l1 ++ l2) = enq_tickets l1 ++ enq_tickets l2.
Proof. unfold enq_tickets. apply flat_map_app. Qed.

Lemma enq_tickets_seq (w : @world W V E) :
  reach mk_error w -> enq_tickets (trace w) = seq 0 (next w).
Proof.
  induction 1 as [|w a w' Hr IH Hst]; [reflexivity|].
  destruct w as [[qu isP act] ls n tr]; simpl in *.
  destruct a as [i wk|k r|k|]; unfold qstep in Hst; simpl in Hst.
  - destruct (enqueue (mkOp i wk n) (mkQ qu isP act)) as [q' [o'|]];
      injection Hst as <-; cbn [trace next]; rewrite ?enq_tickets_app, IH, seq_S;
      cbn [enq_tickets flat_map app]; rewrite ?app_nil_r; reflexivity.
  - destruct (nth_error ls k) as [[o|o r0]|]; try discriminate. injection Hst as <-. simpl.
    rewrite enq_tickets_app, IH. simpl. apply app_nil_r.
  - destruct (nth_error ls k) as [[o|o r]|]; try discriminate.
    destruct (resume (mkQ qu isP act)) as [q' [o'|]]; injection Hst as <-; simpl;
      rewrite ?enq_tickets_app, IH; simpl; rewrite ?app_nil_r; reflexivity.
  - unfold clear in Hst. injection Hst as <-. simpl. rewrite enq_tickets_app, IH.
    replace (enq_tickets (map (fun o => EvCancel (ticket o) (mk_error cancel_msg)) qu)) with (@nil nat);
      [apply app_nil_r|].
    clear. induction qu as [|o qu IHq]; simpl; [reflexivity|]. exact IHq.
Qed.

Lemma seq_prefix_lt s n l1 b l2 a :
  seq s n = l1 ++ b :: l2 -> In a l1 -> a < b.
Proof.
  revert s n. induction l1 as [|x l1 IH]; intros s n Hs Ha; [contradiction|].
  destruct n as [|n]; [discriminate|]. simpl in Hs. injection Hs as Hx Hs. subst x.
  destruct Ha as [Ha|Ha].
  - subst a. assert (Hb : In b (seq (S s) n)) by (rewrite Hs; apply in_app_iff; right; now left).
    apply in_seq in Hb. lia.
  - exact (IH (S s) n Hs Ha).
Qed.

(** Operations are numbered in the order of their [enqueue] calls. *)
Lemma enqueue_order (w : @world W V E) u1 a u2 b u3 :
  reach mk_error w -> trace w = u1 ++ EvEnqueue a :: u2 ++ EvEnqueue b :: u3 -> a < b.
Proof.
  intros Hr Htr. pose proof (enq_tickets_seq w Hr) as Hs. rewrite Htr in Hs.
  rewrite enq_tickets_app in Hs. simpl in Hs. rewrite enq_tickets_app in Hs. simpl in Hs.
  rewrite app_comm_cons, app_assoc in Hs.
  eapply seq_prefix_lt; [symmetry; exact Hs|].
  apply in_app_iff. right. now left.
Qed.

(** No operation is both started and cancelled. *)
Lemma reach_start_cancel_disjoint (w : @world W V E) :
  reach mk_error w -> forall t, started t (trace w) -> cancelled t (trace w) -> False.
Proof.
  intros Hr. induction Hr as [|w a w' Hr IH Hst].
  { intros t H; contradiction. }
  pose proof (reach_inv w Hr) as [Hshape Hpend _ _ Hstart _ Hcanc _ _].
  destruct w as [[qu isP act] ls n tr]; cbn in *.
  destruct a as [i wk|k r|k|]; unfold qstep in Hst; cbn in Hst.
  - unfold enqueue, processQueue, loop_head in Hst. cbn in Hst.
    destruct isP; cbn in Hst.
    + injection Hst as <-. cbn. intros t Hs Hc.
      apply started_app in Hs. apply cancelled_app in Hc.
      destruct Hs as [Hs|[Hs|[]]]; [|discriminate].
      destruct Hc as [Hc|[e [Hc|[]]]]; [|discriminate]. exact (IH t Hs Hc).
    + destruct Hshape as [[_ [_ ->]]|[f [_ Habs]]]; [|discriminate].
      cbn in Hst. injection Hst as <-. cbn. intros t Hs Hc.
      rewrite <- app_assoc in Hs, Hc.
      apply started_app in Hs. apply cancelled_app in Hc.
      destruct Hc as [Hc|[e [Hc|[Hc|[]]]]]; try discriminate.
      destruct Hs as [Hs|[Hs|[Hs|[]]]]; [exact (IH t Hs Hc)|discriminate|].
      injection Hs as <-. apply Hcanc in Hc. lia.
  - destruct (nth_error ls k) as [[o|o r0]|]; try discriminate.
    injection Hst as <-. cbn. intros t Hs Hc.
    apply started_app in Hs. apply cancelled_app in Hc.
    destruct Hs as [Hs|[Hs|[]]]; [|discriminate].
    destruct Hc as [Hc|[e [Hc|[]]]]; [|discriminate]. exact (IH t Hs Hc).
  - destruct (nth_error ls k) as [[o|o r]|]; try discriminate.
    unfold resume, loop_head in Hst. cbn in Hst.
    destruct qu as [|o' rest]; injection Hst as <-; cbn; intros t Hs Hc.
    + apply started_app in Hs. apply cancelled_app in Hc.
      destruct Hs as [Hs|[Hs|[]]]; [|discriminate].
      destruct Hc as [Hc|[e [Hc|[]]]]; [|discriminate]. exact (IH t Hs Hc).
    + rewrite <- app_assoc in Hs, Hc.
      apply started_app in Hs. apply cancelled_app in Hc.
      destruct Hc as [Hc|[e [Hc|[Hc|[]]]]]; try discriminate.
      destruct Hs as [Hs|[Hs|[Hs|[]]]]; [exact (IH t Hs Hc)|discriminate|].
      injection Hs as <-. destruct (Hpend o' (or_introl eq_refl)) as [_ [H _]]. exact (H Hc).
  - unfold clear in Hst. injection Hst as <-. cbn. intros t Hs Hc.
    apply started_app in Hs. apply cancelled_app in Hc.
    destruct Hs as [Hs|Hs]; [|apply in_map_iff in Hs as [o [Ho _]]; discriminate].
    destruct Hc as [Hc|[e Hc]]; [exact (IH t Hs Hc)|].
    apply in_map_iff in Hc as [o [Ho Hin]]. injection Ho as <- _.
    destruct (Hpend o Hin) as [H _]. exact (H Hs).
Qed.

(** ** C1 (as the code behaves): for operations A and B with A's [enqueue]
    call before B's, when B's work begins, A has begun and its work's
    promise has settled, unless A was cancelled by [clear()] before B's
    work began, and then A's work is never called at all; and when any work
    begins, every work that began before it has
    settled, so no two execution windows overlap. *)
Theorem queue_fifo_exclusion (w : @world W V E) :
  reach mk_error w ->
  (forall u1 a u2 b u3 t1 t2,
      trace w = u1 ++ EvEnqueue a :: u2 ++ EvEnqueue b :: u3 ->
      trace w = t1 ++ EvStart b :: t2 ->
      (started a t1 /\ settled a t1) \/ (cancelled a t1 /\ ~ started a (trace w))) /\
  (forall t1 b t2 x,
      trace w = t1 ++ EvStart b :: t2 -> started x t1 -> settled x t1).
Proof.
  intros Hr. split.
  - intros u1 a u2 b u3 t1 t2 Henq Hstart.
    destruct (proj1 (start_prefix w Hr t1 b t2 Hstart) a
                (enqueue_order w u1 a u2 b u3 Hr Henq)) as [H|H]; [left; exact H|right].
    split; [exact H|]. intros Hs.
    apply (reach_start_cancel_disjoint w Hr a Hs).
    rewrite Hstart. apply cancelled_app. left. exact H.
  - intros t1 b t2 x Hstart. apply (start_prefix w Hr t1 b t2 Hstart).
Qed.

(** ** C4 (as the code behaves): [enqueue] always returns after appending
    the operation.  When the queue is draining the work is not started;
    when it is idle, [enqueue] itself runs [processQueue], which shifts the
    new operation and calls its work before [enqueue] returns. *)
Theorem enqueue_appends_and_starts_when_idle (w w' : @world W V E) i wk :
  reach mk_error w -> qstep mk_error w (AEnqueue i wk) = Some w' ->
  (isProcessing (q w) = true ->
     queue (q w') = queue (q w) ++ [mkOp i wk (next w)] /\ loops w' = loops w /\
     trace w' = trace w ++ [EvEnqueue (next w)]) /\
  (isProcessing (q w) = false ->
     queue (q w) = [] /\ queue (q w') = [] /\ isProcessing (q w') = true /\
     loops w' = [Awaiting (mkOp i wk (next w))] /\
     trace w' = trace w ++ [EvEnqueue (next w); EvStart (next w)]).
Proof.
  intros Hr Hst. destruct (reach_inv w Hr) as [Hshape _ _ _ _ _ _ _ _].
  destruct w as [[qu isP act] ls n tr]; simpl in *.
  unfold qstep, enqueue, processQueue, loop_head in Hst. simpl in Hst.
  destruct isP; simpl in Hst; split; intros Hp; try discriminate.
  - injection Hst as <-. simpl. auto.
  - destruct Hshape as [[-> [_ ->]]|[f [_ Habs]]]; [|discriminate].
    simpl in Hst. injection Hst as <-. simpl. rewrite <- app_assoc. auto 6.
Qed.

Lemma drain_run (ps : list QueuedOperation) : forall (w : @world W V E) o rs,
  reach mk_error w -> loops w = [Awaiting o] -> queue (q w) = ps ->
  List.length rs = S (List.length ps) ->
  exists w', run mk_error w (settle_and_resume rs) = Some w' /\
    trace w' = trace w ++ drain_log (ticket o) ps rs /\
    queue (q w') = [] /\ loops w' = [] /\ isProcessing (q w') = false.
Proof.
  induction ps as [|p ps IH]; intros w o rs Hr Hl Hq Hlen;
    destruct rs as [|r rs]; try discriminate; simpl in Hlen; injection Hlen as Hlen.
  - destruct rs; [|discriminate].
    destruct w as [[qu isP act] ls n tr]; simpl in *. subst ls qu.
    eexists. split; [reflexivity|]. simpl. rewrite <- app_assoc. auto.
  - pose (w1 := mkW (q w) [Resumable o r] (next w) (trace w ++ [EvSettle (ticket o) r])).
    assert (H1 : qstep mk_error w (ASettle 0 r) = Some w1)
      by (unfold qstep; rewrite Hl; reflexivity).
    pose (w2 := mkW (mkQ ps (isProcessing (q w)) (Some (id p))) [Awaiting p] (next w)
                    ((trace w1 ++ [EvDeliver (ticket o) r]) ++ [EvStart (ticket p)])).
    assert (H2 : qstep mk_error w1 (AResume 0) = Some w2).
    { unfold qstep, resume, loop_head. simpl. rewrite Hq. reflexivity. }
    assert (Hr2 : reach mk_error w2) by (eapply reach_step; [eapply reach_step; eauto|exact H2]).
    destruct (IH w2 p rs Hr2 eq_refl eq_refl Hlen) as [w' [Hrun [Htr Hrest]]].
    exists w'. split.
    + unfold settle_and_resume. cbn [flat_map app run]. rewrite H1. cbn [run]. rewrite H2.
      exact Hrun.
    + split; [|exact Hrest]. rewrite Htr. simpl. rewrite <- !app_assoc. reflexivity.
Qed.

(** ** C6: a rejected work has its own future rejected with the same error
    and the loop goes straight on with the next queued operation; whatever
    the mix of successes and failures, every queued operation is started in
    turn and receives exactly its own work's outcome (and, in every reachable
    state, a delivered outcome is the one its own work settled with). *)
Theorem queue_failure_isolation (w : @world W V E) :
  reach mk_error w ->
  (forall t r, In (EvDeliver t r) (trace w) -> In (EvSettle t r) (trace w)) /\
  (forall k o e w', nth_error (loops w) k = Some (Resumable o (Rejected e)) ->
     qstep mk_error w (AResume k) = Some w' ->
     match queue (q w) with
     | p :: rest => queue (q w') = rest /\ loops w' = [Awaiting p] /\
                    trace w' = trace w ++ [EvDeliver (ticket o) (Rejected e); EvStart (ticket p)]
     | [] => queue (q w') = [] /\ loops w' = [] /\ isProcessing (q w') = false /\
             trace w' = trace w ++ [EvDeliver (ticket o) (Rejected e)]
     end) /\
  (forall o rs, loops w = [Awaiting o] -> List.length rs = S (List.length (queue (q w))) ->
     exists w', run mk_error w (settle_and_resume rs) = Some w' /\
       trace w' = trace w ++ drain_log (ticket o) (queue (q w)) rs /\
       queue (q w') = [] /\ loops w' = [] /\ isProcessing (q w') = false).
Proof.
  intros Hr. pose proof (reach_inv w Hr) as HI. split; [|split].
  - apply (inv_deliver _ HI).
  - intros k o e w' Hk Hst. destruct HI as [Hshape _ _ _ _ _ _ _ _].
    destruct w as [[qu isP act] ls n tr]; simpl in *.
    unfold qstep in Hst. simpl in Hst. rewrite Hk in Hst.
    destruct Hshape as [[-> _] | [f [-> Hp]]]; [destruct k; discriminate|].
    destruct k as [|k]; [|destruct k; discriminate].
    unfold resume, loop_head in Hst. simpl in Hst.
    destruct qu as [|p rest]; injection Hst as <-; simpl.
    + auto.
    + rewrite <- app_assoc. auto.
  - intros o rs Hl Hlen. exact (drain_run (queue (q w)) w o rs Hr Hl eq_refl Hlen).
Qed.

(** ** C7: [clear()] empties the pending sequence at once, rejects every
    pending (never started) operation with the cancellation error, leaves the
    drain loop and its running operation alone, and that operation, once its
    work settles, still has its own outcome delivered. *)
Theorem queue_clear_cancels_pending_only (w w' : @world W V E) :
  reach mk_error w -> qstep mk_error w AClear = Some w' ->
  queue (q w') = [] /\
  (forall o, In o (queue (q w)) -> ~ started (ticket o) (trace w)) /\
  trace w' = trace w ++ map (fun o => EvCancel (ticket o) (mk_error cancel_msg)) (queue (q w)) /\
  loops w' = loops w /\ isProcessing (q w') = isProcessing (q w) /\
  activeOperation (q w') = activeOperation (q w) /\
  (forall k o r, nth_error (loops w) k = Some (Awaiting o) ->
     exists w1 w2, qstep mk_error w' (ASettle k r) = Some w1 /\
       qstep mk_error w1 (AResume k) = Some w2 /\
       trace w2 = trace w' ++ [EvSettle (ticket o) r; EvDeliver (ticket o) r]).
Proof.
  intros Hr Hst. pose proof (reach_inv w Hr) as HI.
  destruct HI as [Hshape Hpend _ _ _ _ _ _ _].
  destruct w as [[qu isP act] ls n tr]; simpl in *.
  unfold qstep, clear in Hst. simpl in Hst. injection Hst as <-. simpl.
  repeat split; try reflexivity.
  - intros o Ho. apply Hpend. exact Ho.
  - intros k o r Hk.
    destruct Hshape as [[-> _] | [f [-> Hp]]]; [destruct k; discriminate|].
    destruct k as [|k]; [|destruct k; discriminate]. simpl in Hk. injection Hk as ->.
    eexists. eexists. split; [reflexivity|]. split; [reflexivity|].
    simpl. rewrite <- app_assoc. reflexivity.
Qed.

End Proofs.

(** ** C1 as stated fails: A is enqueued behind a running operation X, [clear()]
    cancels A, B is enqueued afterwards and begins once X settles, while A
    never begins. *)
Lemma queue_fifo_counterexample :
  ~ (forall w : @world unit unit string, reach (fun s => s) w ->
     forall u1 a u2 b u3 t1 t2,
       trace w = u1 ++ EvEnqueue a :: u2 ++ EvEnqueue b :: u3 ->
       trace w = t1 ++ EvStart b :: t2 ->
       started a t1 /\ settled a t1).
Proof.
  intros H.
  pose (acts := [AEnqueue "x" tt; AEnqueue "a" tt; AClear; AEnqueue "b" tt;
                 ASettle 0 (Resolved tt); AResume 0] : list (@action unit unit string)).
  pose (wce := match run (fun s => s) w0 acts with Some w => w | None => w0 end).
  assert (Hr : reach (fun s => s) wce).
  { apply (run_reach (fun s => s) w0 wce acts); [constructor|reflexivity]. }
  destruct (H wce Hr [EvEnqueue 0; EvStart 0] 1 [EvCancel 1 cancel_msg] 2
              [EvSettle 0 (Resolved tt); EvDeliver 0 (Resolved tt); EvStart 2]
              [EvEnqueue 0; EvStart 0; EvEnqueue 1; EvCancel 1 cancel_msg; EvEnqueue 2;
               EvSettle 0 (Resolved tt); EvDeliver 0 (Resolved tt)] [])
    as [Hs _]; try reflexivity.
  unfold started in Hs. simpl in Hs. intuition discriminate.
Qed.

(** ** C4 as stated fails: on an idle queue the work of the new operation is
    called inside [enqueue]. *)
Lemma enqueue_sync_start_counterexample :
  ~ (forall (w w' : @world unit unit string) i wk,
       reach (fun s => s) w -> qstep (fun s => s) w (AEnqueue i wk) = Some w' ->
       ~ started (next w) (trace w')).
Proof.
  intros H. apply (H w0 (mkW (mkQ [] true (Some "a"%string)) [Awaiting (mkOp "a"%string tt 0)] 1
                            [EvEnqueue 0; EvStart 0]) "a"%string tt (reach_init _) eq_refl).
  unfold started. simpl. auto.
Qed.

(** ** The theorems on concrete runs of a queue *)

Lemma queue_fifo_exclusion_witness :
  let w := demo_world [AEnqueue "a" tt; AEnqueue "b" tt; ASettle 0 (Resolved tt); AResume 0] in
  reach (fun s => s) w /\
  (forall u1 a u2 b u3 t1 t2,
      trace w = u1 ++ EvEnqueue a :: u2 ++ EvEnqueue b :: u3 ->
      trace w = t1 ++ EvStart b :: t2 ->
      (started a t1 /\ settled a t1) \/ (cancelled a t1 /\ ~ started a (trace w))) /\
  (forall t1 b t2 x,
      trace w = t1 ++ EvStart b :: t2 -> started x t1 -> settled x t1).
Proof.
  intros w.
  assert (Hr : reach (fun s => s) w) by (apply (run_reach (fun s => s) w0 w
    [AEnqueue "a" tt; AEnqueue "b" tt; ASettle 0 (Resolved tt); AResume 0]);
    [constructor|reflexivity]).
  split; [exact Hr|exact (queue_fifo_exclusion (fun s => s) w Hr)].
Defined.

Lemma enqueue_appends_and_starts_when_idle_witness :
  let w := demo_world [AEnqueue "a" tt] in
  let w' := demo_world [AEnqueue "a" tt; AEnqueue "b" tt] in
  reach (fun s => s) w /\ qstep (fun s => s) w (AEnqueue "b" tt) = Some w' /\
  (isProcessing (q w) = true ->
     queue (q w') = queue (q w) ++ [mkOp "b" tt (next w)] /\ loops w' = loops w /\
     trace w' = trace w ++ [EvEnqueue (next w)]) /\
  (isProcessing (q w) = false ->
     queue (q w) = [] /\ queue (q w') = [] /\ isProcessing (q w') = true /\
     loops w' = [Awaiting (mkOp "b" tt (next w))] /\
     trace w' = trace w ++ [EvEnqueue (next w); EvStart (next w)]).
Proof.
  intros w w'.
  assert (Hr : reach (fun s => s) w)
    by (apply (run_reach (fun s => s) w0 w [AEnqueue "a" tt]); [constructor|reflexivity]).
  assert (Hs : qstep (fun s => s) w (AEnqueue "b" tt) = Some w') by reflexivity.
  split; [exact Hr|split; [exact Hs|]].
  exact (enqueue_appends_and_starts_when_idle (fun s => s) w w' "b" tt Hr Hs).
Defined.

Lemma queue_failure_isolation_witness :
  let w := demo_world [AEnqueue "a" tt; AEnqueue "b" tt] in
  reach (fun s => s) w /\
  (forall t r, In (EvDeliver t r) (trace w) -> In (EvSettle t r) (trace w)) /\
  (forall k o e w', nth_error (loops w) k = Some (Resumable o (Rejected e)) ->
     qstep (fun s => s) w (AResume k) = Some w' ->
     match queue (q w) with
     | p :: rest => queue (q w') = rest /\ loops w' = [Awaiting p] /\
                    trace w' = trace w ++ [EvDeliver (ticket o) (Rejected e); EvStart (ticket p)]
     | [] => queue (q w') = [] /\ loops w' = [] /\ isProcessing (q w') = false /\
             trace w' = trace w ++ [EvDeliver (ticket o) (Rejected e)]
     end) /\
  (forall o rs, loops w = [Awaiting o] -> List.length rs = S (List.length (queue (q w))) ->
     exists w', run (fun s => s) w (settle_and_resume rs) = Some w' /\
       trace w' = trace w ++ drain_log (ticket o) (queue (q w)) rs /\
       queue (q w') = [] /\ loops w' = [] /\ isProcessing (q w') = false).
Proof.
  intros w.
  assert (Hr : reach (fun s => s) w)
    by (apply (run_reach (fun s => s) w0 w [AEnqueue "a" tt; AEnqueue "b" tt]);
        [constructor|reflexivity]).
  split; [exact Hr|exact (queue_failure_isolation (fun s => s) w Hr)].
Defined.

Lemma queue_clear_cancels_pending_only_witness :
  let w := demo_world [AEnqueue "a" tt; AEnqueue "b" tt] in
  let w' := demo_world [AEnqueue "a" tt; AEnqueue "b" tt; AClear] in
  reach (fun s => s) w /\ qstep (fun s => s) w AClear = Some w' /\
  queue (q w') = [] /\
  (forall o, In o (queue (q w)) -> ~ started (ticket o) (trace w)) /\
  trace w' = trace w ++ map (fun o => EvCancel (ticket o) cancel_msg) (queue (q w)) /\
  loops w' = loops w /\ isProcessing (q w') = isProcessing (q w) /\
  activeOperation (q w') = activeOperation (q w) /\
  (forall k o r, nth_error (loops w) k = Some (Awaiting o) ->
     exists w1 w2, qstep (fun s => s) w' (ASettle k r) = Some w1 /\
       qstep (fun s => s) w1 (AResume k) = Some w2 /\
       trace w2 = trace w' ++ [EvSettle (ticket o) r; EvDeliver (ticket o) r]).
Proof.
  intros w w'.
  assert (Hr : reach (fun s => s) w)
    by (apply (run_reach (fun s => s) w0 w [AEnqueue "a" tt; AEnqueue "b" tt]);
        [constructor|reflexivity]).
  assert (Hs : qstep (fun s => s) w AClear = Some w') by reflexivity.
  split; [exact Hr|split; [exact Hs|]].
  exact (queue_clear_cancels_pending_only (fun s => s) w w' Hr Hs).
Defined.

End QueueProofs.

(** * Proofs about the cart store *)
Module CartProofs.
Import CartStore.
Local Open Scope list_scope.

(** ** Lists, heaps and reads *)

Lemma nth_error_update_nth_neq {A} (f : A -> A) :
  forall (h : list A) l l', l <> l' -> nth_error (update_nth l f h) l' = nth_error h l'.
Proof.
  induction h as [|x h IH]; intros [|l] [|l'] Hne; simpl; try reflexivity; try congruence.
  apply IH. congruence.
Qed.

Lemma nth_error_update_nth_eq {A} (f : A -> A) :
  forall (h : list A) l x, nth_error h l = Some x -> nth_error (update_nth l f h) l = Some (f x).
Proof.
  induction h as [|y h IH]; intros [|l] x Hx; simpl in *; try discriminate.
  - congruence.
  - apply IH; exact Hx.
Qed.

Lemma update_nth_length {A} (f : A -> A) :
  forall (h : list A) l, List.length (update_nth l f h) = List.length h.
Proof. induction h as [|y h IH]; intros [|l]; simpl; auto. Qed.

Lemma wf_locs_mono n m ls : wf_locs n ls -> n <= m -> wf_locs m ls.
Proof.
  intros [Hnd Hf] Hle. split; [exact Hnd|].
  eapply Forall_impl; [|exact Hf]. intros l Hl; simpl in Hl; lia.
Qed.

Lemma read_app h l1 l2 : read h (l1 ++ l2) = read h l1 ++ read h l2.
Proof. unfold read. apply flat_map_app. Qed.

Lemma read_heap_ext h h' ls :
  (forall l, In l ls -> nth_error h' l = nth_error h l) -> read h' ls = read h ls.
Proof.
  induction ls as [|l ls IH]; intros H; simpl; [reflexivity|].
  rewrite (H l (or_introl eq_refl)). f_equal. apply IH. intros l' Hl'. apply H. right; exact Hl'.
Qed.

Lemma read_heap_app h xs ls :
  Forall (fun l => l < List.length h) ls -> read (h ++ xs) ls = read h ls.
Proof.
  intros Hf. apply read_heap_ext. intros l Hl.
  apply nth_error_app1. rewrite Forall_forall in Hf. apply Hf; exact Hl.
Qed.


Lemma read_valid h l ls :
  l < List.length h -> exists c, nth_error h l = Some c /\ read h (l :: ls) = c :: read h ls.
Proof.
  intros Hl. destruct (nth_error h l) as [c|] eqn:E.
  - exists c. split; [reflexivity|]. simpl. rewrite E. reflexivity.
  - apply nth_error_None in E. lia.
Qed.

Lemma read_filter_other h itemId ls :
  forall c, In c (read h (filter (other_id h itemId) ls)) -> id c <> itemId.
Proof.
  induction ls as [|l ls IH]; simpl; [tauto|].
  unfold other_id at 1. destruct (nth_error h l) as [c0|] eqn:E; simpl.
  - destruct (negb (String.eqb (id c0) itemId)) eqn:Hn; simpl.
    + rewrite E. simpl. intros c [<-|Hc].
      * apply negb_true_iff, String.eqb_neq in Hn. exact Hn.
      * apply IH; exact Hc.
    + exact IH.
  - rewrite E. simpl. exact IH.
Qed.

Lemma find_none p h :
  forall ls, find p h ls = None <-> (forall c, In c (read h ls) -> p c = false).
Proof.
  induction ls as [|l ls IH]; simpl; [split; [tauto|reflexivity]|].
  destruct (nth_error h l) as [c0|] eqn:E; simpl.
  - destruct (p c0) eqn:Hp; split.
    + discriminate.
    + intros H. rewrite (H c0 (or_introl eq_refl)) in Hp. discriminate.
    + intros Hf c [<-|Hc]; [exact Hp|]. apply IH; assumption.
    + intros H. apply IH. intros c Hc. apply H. right; exact Hc.
  - exact IH.
Qed.

Lemma findIndex_bound p h :
  forall ls i, findIndex p h ls = Some i -> i < List.length ls.
Proof.
  induction ls as [|l ls IH]; intros i Hi; simpl in Hi; [discriminate|].
  destruct (nth_error h l) as [c|]; [destruct (p c)|].
  all: try (injection Hi as <-; simpl; lia).
  all: destruct (findIndex p h ls) as [j|] eqn:E; simpl in Hi; try discriminate;
       injection Hi as <-; specialize (IH j eq_refl); simpl; lia.
Qed.

Lemma findIndex_none p h :
  forall ls, findIndex p h ls = None -> forall c, In c (read h ls) -> p c = false.
Proof.
  induction ls as [|l ls IH]; intros Hn c Hc; simpl in *; [tauto|].
  destruct (nth_error h l) as [c0|]; [destruct (p c0) eqn:Hp|].
  - discriminate.
  - destruct (findIndex p h ls); simpl in Hn; [discriminate|].
    destruct Hc as [<-|Hc]; [exact Hp|]. apply IH; auto.
  - destruct (findIndex p h ls); simpl in Hn; [discriminate|].
    apply IH; auto.
Qed.

Lemma add_line_spec_absent item nl :
  forall cs, (forall c, In c cs ->
               (String.eqb (productId c) (AddArg.productId item)
                && String.eqb (variantId c) (AddArg.variantId item)) = false) ->
  add_line_spec item nl cs = cs ++ [nl].
Proof.
  induction cs as [|c cs IH]; intros H; simpl; [reflexivity|].
  rewrite (H c (or_introl eq_refl)). f_equal. apply IH. intros c' Hc'. apply H. right; exact Hc'.
Qed.

(** The two branches of the optimistic add, read back through the heap. *)
Lemma add_found item nl :
  forall h ls l,
  wf_locs (List.length h) ls ->
  option_bind (findIndex (fun c => String.eqb (productId c) (AddArg.productId item)
                                   && String.eqb (variantId c) (AddArg.variantId item)) h ls)
              (nth_error ls) = Some l ->
  read (update_nth l (fun c => with_quantity c (quantity c + AddArg.quantity item)%Z) h) ls
  = add_line_spec item nl (read h ls).
Proof.
  intros h ls. induction ls as [|l0 ls IH]; intros l [Hnd Hf] Hl; [discriminate|].
  inversion Hnd as [|? ? Hnin Hnd']; subst. inversion Hf as [|? ? Hl0 Hf']; subst.
  destruct (read_valid h l0 ls Hl0) as [c0 [Hc0 Hr]]. rewrite Hr.
  simpl in Hl. rewrite Hc0 in Hl.
  destruct (String.eqb (productId c0) (AddArg.productId item)
            && String.eqb (variantId c0) (AddArg.variantId item)) eqn:Hs.
  - simpl in Hl. injection Hl as <-.
    simpl. rewrite (nth_error_update_nth_eq _ h l0 c0 Hc0). simpl. rewrite Hs.
    f_equal. apply read_heap_ext. intros l' Hl'.
    apply nth_error_update_nth_neq. intros ->. contradiction.
  - destruct (findIndex _ h ls) as [i|] eqn:Ei; simpl in Hl; [|discriminate].
    assert (Hin : In l ls) by (eapply nth_error_In; exact Hl).
    simpl. rewrite nth_error_update_nth_neq by (intros ->; contradiction).
    rewrite Hc0. simpl. rewrite Hs. f_equal.
    apply IH; [split; assumption|]. exact Hl.
Qed.

Lemma add_absent item nl h ls :
  wf_locs (List.length h) ls ->
  option_bind (findIndex (fun c => String.eqb (productId c) (AddArg.productId item)
                                   && String.eqb (variantId c) (AddArg.variantId item)) h ls)
              (nth_error ls) = None ->
  read (h ++ [nl]) (ls ++ [List.length h]) = add_line_spec item nl (read h ls).
Proof.
  intros [Hnd Hf] Hn.
  destruct (findIndex _ h ls) as [i|] eqn:Ei.
  - apply findIndex_bound in Ei. simpl in Hn. apply nth_error_None in Hn. lia.
  - rewrite add_line_spec_absent by (apply findIndex_none with (ls := ls); exact Ei).
    rewrite read_app, read_heap_app by exact Hf. f_equal.
    simpl. rewrite nth_error_app2 by lia. rewrite Nat.sub_diag. reflexivity.
Qed.

Lemma filter_wf_locs n p ls : wf_locs n ls -> wf_locs n (filter p ls).
Proof.
  intros [Hnd Hf]. split.
  - apply NoDup_filter; exact Hnd.
  - apply Forall_forall. intros l Hl. apply filter_In in Hl as [Hl _].
    rewrite Forall_forall in Hf. apply Hf; exact Hl.
Qed.

Lemma set_add_empty x : set_add x [] = [x].
Proof. reflexivity. Qed.

Lemma set_delete_single x : set_delete x [x] = [].
Proof. unfold set_delete. simpl. rewrite String.eqb_refl. reflexivity. Qed.

(** What the synchronous start of a work does to the store. *)
Lemma work_start_inv t wk s s' req tk :
  work_start t wk s = (s', req, tk) ->
  wf_locs (List.length (heap s)) (items s) ->
  (exists ret, tk = WorkAtServer t wk (items s) ret)
  /\ pendingOperations s' = set_add (work_opid wk) (pendingOperations s)
  /\ List.length (heap s) <= List.length (heap s')
  /\ wf_locs (List.length (heap s')) (items s').
Proof.
  intros Hws Hwf. destruct wk as [item sid opid|itemId l sid opid|itemId q l sid opid|sid opid];
    unfold work_start in Hws.
  - destruct (option_bind _ _) as [l|] eqn:E; injection Hws as <- <- <-;
      (split; [eexists; reflexivity|]); simpl; split; try reflexivity.
    + rewrite update_nth_length. split; [lia|exact Hwf].
    + rewrite length_app. simpl. split; [lia|].
      destruct Hwf as [Hnd Hf]. split.
      * apply NoDup_app; [exact Hnd|constructor; [tauto|constructor]|].
        intros x Hx [<-|[]]. rewrite Forall_forall in Hf. specialize (Hf _ Hx). lia.
      * apply Forall_app. split.
        -- eapply Forall_impl; [|exact Hf]. simpl; intros; lia.
        -- constructor; [lia|constructor].
  - injection Hws as <- <- <-. split; [eexists; reflexivity|]. simpl.
    split; [reflexivity|]. split; [lia|]. apply filter_wf_locs; exact Hwf.
  - destruct (q <=? 0)%Z.
    + injection Hws as <- <- <-. split; [eexists; reflexivity|]. simpl.
      split; [reflexivity|]. split; [lia|]. apply filter_wf_locs; exact Hwf.
    + destruct (find _ _ _) as [[l' c]|]; injection Hws as <- <- <-;
        (split; [eexists; reflexivity|]); simpl; split; try reflexivity.
      * rewrite update_nth_length. split; [lia|exact Hwf].
      * split; [lia|exact Hwf].
  - injection Hws as <- <- <-. split; [eexists; reflexivity|]. simpl.
    split; [reflexivity|]. split; [lia|]. split; constructor.
Qed.

(** ** Task lists *)

Lemma nth_error_split_remove {A} :
  forall (l : list A) k x, nth_error l k = Some x ->
  l = firstn k l ++ x :: skipn (S k) l /\ remove_nth k l = firstn k l ++ skipn (S k) l.
Proof.
  induction l as [|y l IH]; intros [|k] x Hx; simpl in Hx; try discriminate.
  - injection Hx as ->. simpl. split; reflexivity.
  - destruct (IH k x Hx) as [H1 H2]. simpl. split; f_equal; assumption.
Qed.

Lemma In_remove_nth {A} :
  forall (l : list A) k y, In y (remove_nth k l) -> In y l.
Proof.
  induction l as [|x l IH]; intros [|k] y Hy; simpl in *; auto.
  destruct Hy as [->|Hy]; [left; reflexivity|right; eapply IH; exact Hy].
Qed.

Lemma active_app tks tks' : active_tasks (tks ++ tks') = active_tasks tks ++ active_tasks tks'.
Proof. unfold active_tasks. apply filter_app. Qed.

Lemma active_in tks tk : In tk tks -> is_active tk = true -> In tk (active_tasks tks).
Proof. intros H1 H2. unfold active_tasks. apply filter_In. auto. Qed.

Lemma active_remove_inactive tks k tk :
  nth_error tks k = Some tk -> is_active tk = false ->
  active_tasks (remove_nth k tks) = active_tasks tks.
Proof.
  intros Hk Ha. destruct (nth_error_split_remove _ _ _ Hk) as [H1 H2].
  rewrite H2. transitivity (active_tasks (firstn k tks ++ tk :: skipn (S k) tks));
    [|rewrite <- H1; reflexivity].
  unfold active_tasks. rewrite !filter_app. simpl. rewrite Ha. reflexivity.
Qed.

Lemma active_remove_single tks k tk :
  nth_error tks k = Some tk -> active_tasks tks = [tk] ->
  active_tasks (remove_nth k tks) = [].
Proof.
  intros Hk Ha. destruct (nth_error_split_remove _ _ _ Hk) as [H1 H2].
  rewrite H1 in Ha. unfold active_tasks in *. rewrite H2, filter_app.
  rewrite filter_app in Ha. cbn [filter] in Ha.
  destruct (is_active tk) eqn:Hx.
  - apply app_eq_unit in Ha as [[-> Hb]|[_ Hb]]; [|discriminate].
    assert (Hb' : filter is_active (skipn (S k) tks) = []) by (injection Hb; auto).
    rewrite Hb'. reflexivity.
  - assert (Hin : In tk (filter is_active (firstn k tks) ++ filter is_active (skipn (S k) tks)))
      by (rewrite Ha; left; reflexivity).
    apply in_app_iff in Hin as [Hin|Hin]; apply filter_In in Hin as [_ Hin]; congruence.
Qed.

Lemma pending_after_server wk b ret reply s s' r :
  work_after_server wk b ret reply s = (s', r) ->
  pendingOperations s = [work_opid wk] ->
  pendingOperations s' = []
  /\ heap s' = heap s
  /\ items s' = match reply with None => items s | Some _ => b end
  /\ r = match reply with None => AsyncQueue.Resolved ret | Some e => AsyncQueue.Rejected e end.
Proof.
  intros H Hp. unfold work_after_server in H.
  destruct reply as [e|]; injection H as <- <-; simpl; rewrite Hp, set_delete_single; auto.
Qed.

Lemma syncCart_no_pending sid s :
  pendingOperations s = [] ->
  syncCart sid s = match sid with
                   | Some x => if String.eqb x "" then None else Some x
                   | None => None
                   end.
Proof.
  intros Hp. unfold syncCart. rewrite Hp. destruct sid as [x|]; [|reflexivity].
  destruct (String.eqb x ""); reflexivity.
Qed.

Lemma syncCart_pending sid s : pendingOperations s <> [] -> syncCart sid s = None.
Proof.
  intros Hp. unfold syncCart. destruct sid as [x|]; [|reflexivity].
  destruct (String.eqb x ""); [reflexivity|]. destruct (pendingOperations s); congruence.
Qed.

Lemma syncCart_resume_inv resp s :
  wf_locs (List.length (heap s)) (items s) ->
  pendingOperations (syncCart_resume resp s) = pendingOperations s
  /\ List.length (heap s) <= List.length (heap (syncCart_resume resp s))
  /\ wf_locs (List.length (heap (syncCart_resume resp s))) (items (syncCart_resume resp s)).
Proof.
  intros Hwf. unfold syncCart_resume.
  destruct resp as [[lines|]|e]; [|auto|auto].
  destruct (pendingOperations s) eqn:Hp; [|auto].
  simpl. rewrite length_app, length_map. split; [reflexivity|]. split; [lia|].
  split; [apply seq_NoDup|]. apply Forall_forall. intros l Hl. apply in_seq in Hl. lia.
Qed.

(** ** The invariant holds in every reachable world *)

Lemma shape_congr w w' :
  loops w' = loops w ->
  AsyncQueue.isProcessing (qs w') = AsyncQueue.isProcessing (qs w) ->
  (loops w = [] -> AsyncQueue.queue (qs w') = AsyncQueue.queue (qs w)) ->
  active_tasks (tasks w') = active_tasks (tasks w) ->
  pendingOperations (st w') = pendingOperations (st w) ->
  shape w -> shape w'.
Proof.
  intros Hl Hq Hqq Ha Hp Hs. unfold shape in *. rewrite Hl, Hq, Ha, Hp.
  destruct (loops w) eqn:E; [rewrite Hqq by reflexivity|]; exact Hs.
Qed.

Lemma shape_idle_queue w : shape w -> loops w = [] -> AsyncQueue.queue (qs w) = [].
Proof. unfold shape. intros Hs E. rewrite E in Hs. tauto. Qed.

Lemma shape_idle w : shape w -> AsyncQueue.isProcessing (qs w) = false -> loops w = [].
Proof.
  unfold shape. intros Hs Hq. destruct (loops w) as [|[o|o r] [|f fs]]; try tauto;
    destruct Hs as [Hs _]; congruence.
Qed.

Lemma start_op_cinv o w :
  wf_locs (List.length (heap (st w))) (items (st w)) ->
  (forall t wk b ret, In (WorkAtServer t wk b ret) (tasks w) ->
                      wf_locs (List.length (heap (st w))) b) ->
  active_tasks (tasks w) = [] -> pendingOperations (st w) = [] ->
  loops w = [AsyncQueue.Awaiting o] -> AsyncQueue.isProcessing (qs w) = true ->
  CInv (start_op o w).
Proof.
  intros Hi Hb Ha Hp Hl Hq. unfold start_op.
  destruct (work_start _ _ _) as [[s' req] tk] eqn:E.
  destruct (work_start_inv _ _ _ _ _ _ E Hi) as [[ret ->] [Hp' [Hlen Hwf]]].
  constructor; cbn [st tasks].
  - exact Hwf.
  - intros t wk b r Hin. apply in_app_iff in Hin as [Hin|[Hin|[]]].
    + eapply wf_locs_mono; [apply (Hb _ _ _ _ Hin)|exact Hlen].
    + injection Hin as _ _ <- _. eapply wf_locs_mono; [exact Hi|exact Hlen].
  - unfold shape. cbn [loops qs tasks st]. rewrite Hl. split; [exact Hq|].
    left. exists (items (st w)), ret. rewrite active_app, Ha, Hp', Hp. split; reflexivity.
Qed.

Lemma enqueue_work_cinv wk opid w : CInv w -> CInv (enqueue_work wk opid w).
Proof.
  intros [Hi Hb Hs]. unfold enqueue_work.
  destruct (loops w) as [|f [|f' fs]] eqn:Hl.
  - pose proof (shape_idle_queue w Hs Hl) as Hqq.
    unfold shape in Hs. rewrite Hl in Hs. destruct Hs as [Hq [_ [Ha Hp]]].
    destruct (qs w) as [qq ip ao]; cbn in Hq, Hqq; subst qq ip.
    apply start_op_cinv; cbn [st tasks loops qs AsyncQueue.isProcessing]; auto.
  - assert (Hq : AsyncQueue.isProcessing (qs w) = true)
      by (unfold shape in Hs; rewrite Hl in Hs; destruct f; tauto).
    unfold AsyncQueue.enqueue. cbn [AsyncQueue.isProcessing]. rewrite Hq. cbn [negb].
    constructor; cbn [st tasks]; [exact Hi|exact Hb|].
    apply (shape_congr w); cbn [loops qs tasks st AsyncQueue.isProcessing]; auto.
    congruence.
  - exfalso. unfold shape in Hs. rewrite Hl in Hs. destruct f; exact Hs.
Qed.

Lemma cinv_init : CInv cart_init.
Proof.
  constructor; cbn.
  - split; constructor.
  - tauto.
  - repeat split.
Qed.

Ltac active_member Ha Hk :=
  let Hin := fresh "Hin" in
  pose proof (active_in _ _ (nth_error_In _ _ Hk) eq_refl) as Hin;
  rewrite Ha in Hin.

Lemma cinv_step w a w' : CInv w -> cstep w a = Some w' -> CInv w'.
Proof.
  intros HI Hst. pose proof HI as [Hi Hb Hs].
  destruct a as [item sid now|itemId sid now|itemId q sid now|sid now|sid| |k reply|k resp|k];
    unfold cstep in Hst.
  - injection Hst as <-. apply enqueue_work_cinv; exact HI.
  - injection Hst as <-. unfold removeItem.
    destruct (find _ _ _) as [[l c]|]; [apply enqueue_work_cinv|]; exact HI.
  - injection Hst as <-. unfold updateQuantity.
    destruct (find _ _ _) as [[l c]|]; [apply enqueue_work_cinv|]; exact HI.
  - injection Hst as <-. apply enqueue_work_cinv; exact HI.
  - injection Hst as <-. destruct (syncCart sid (st w)) as [x|]; [|exact HI].
    constructor; cbn [st tasks]; [exact Hi| |].
    + intros t wk b r Hin. apply in_app_iff in Hin as [Hin|[Hin|[]]]; [|discriminate].
      apply (Hb _ _ _ _ Hin).
    + apply (shape_congr w); cbn [loops qs tasks st]; auto.
      rewrite active_app. apply app_nil_r.
  - unfold AsyncQueue.clear in Hst. injection Hst as <-.
    constructor; cbn [st tasks]; [exact Hi|exact Hb|].
    apply (shape_congr w); cbn [loops qs tasks st AsyncQueue.isProcessing AsyncQueue.queue]; auto.
    intros E. symmetry. apply shape_idle_queue; assumption.
  - destruct (nth_error (tasks w) k) as [[t wk b ret|sid owner]|] eqn:Hk; try discriminate.
    destruct (work_after_server wk b ret reply (st w)) as [s1 r] eqn:Hw.
    injection Hst as <-.
    (* the work waiting on the server is the running operation *)
    unfold shape in Hs. destruct (loops w) as [|[o|o r0] [|f fs]] eqn:Hl; try contradiction.
    + destruct Hs as [_ [_ [Ha _]]]. active_member Ha Hk. contradiction.
    + destruct Hs as [Hq [[b' [ret' [Ha Hp]]]|[sid [r' [Ha Hp]]]]];
        active_member Ha Hk; destruct Hin as [Hin|[]]; try discriminate.
      injection Hin as Ht Hwk Hb' Hr'. subst t wk b' ret'.
      destruct (pending_after_server _ _ _ _ _ _ _ Hw Hp) as [Hp1 [Hh1 [Hi1 Hr]]].
      assert (Hwf1 : wf_locs (List.length (heap s1)) (items s1)).
      { rewrite Hh1, Hi1. destruct reply; [|exact Hi].
        apply (Hb _ _ _ _ (nth_error_In _ _ Hk)). }
      assert (Hb1 : forall t wk b0 ret0, In (WorkAtServer t wk b0 ret0) (remove_nth k (tasks w)) ->
                                         wf_locs (List.length (heap s1)) b0).
      { intros t wk b0 ret0 Hin. rewrite Hh1. apply (Hb t wk b0 ret0). eapply In_remove_nth; exact Hin. }
      pose proof (active_remove_single _ _ _ Hk Ha) as Ha1.
      unfold work_finally. rewrite (syncCart_no_pending _ _ Hp1). cbn [st].
      assert (Hset : CInv (work_settled (AsyncQueue.ticket o) r
                             (mkWorld s1 (qs w) (loops w) (next w) (remove_nth k (tasks w)) (log w)))).
      { unfold work_settled. constructor; cbn [st tasks]; [exact Hwf1|exact Hb1|].
        unfold shape. cbn [loops qs tasks st]. rewrite Hl. cbn. rewrite Nat.eqb_refl.
        rewrite Ha1, Hp1. repeat split; exact Hq. }
      rewrite Hl in Hset.
      destruct (work_session (AsyncQueue.operation o)) as [x|];
        [destruct (String.eqb x "")|]; cbv iota; try exact Hset.
      constructor; cbn [st tasks]; [exact Hwf1| |].
      -- intros t wk b0 ret0 Hin. apply in_app_iff in Hin as [Hin|[Hin|[]]]; [|discriminate].
         exact (Hb1 _ _ _ _ Hin).
      -- unfold shape. cbn [loops qs tasks st]. split; [exact Hq|].
         right. exists x, r. rewrite active_app, Ha1, Hp1. split; reflexivity.
    + destruct Hs as [_ [Ha _]]. active_member Ha Hk. contradiction.
  - destruct (nth_error (tasks w) k) as [[t wk b ret|sid owner]|] eqn:Hk; try discriminate.
    injection Hst as <-.
    destruct (syncCart_resume_inv resp (st w) Hi) as [Hp1 [Hlen Hwf1]].
    assert (Hb1 : forall t wk b0 ret0, In (WorkAtServer t wk b0 ret0) (remove_nth k (tasks w)) ->
                    wf_locs (List.length (heap (syncCart_resume resp (st w)))) b0).
    { intros t wk b0 ret0 Hin. eapply wf_locs_mono; [|exact Hlen].
      apply (Hb t wk b0 ret0). eapply In_remove_nth; exact Hin. }
    destruct owner as [[t r]|].
    + unfold shape in Hs. destruct (loops w) as [|[o|o r0] [|f fs]] eqn:Hl; try contradiction.
      * destruct Hs as [_ [_ [Ha _]]]. active_member Ha Hk. contradiction.
      * destruct Hs as [Hq [[b' [ret' [Ha Hp]]]|[sid' [r' [Ha Hp]]]]];
          active_member Ha Hk; destruct Hin as [Hin|[]]; try discriminate.
        injection Hin as Hsid Ht Hr. subst sid' t r'.
        pose proof (active_remove_single _ _ _ Hk Ha) as Ha1.
        unfold work_settled. constructor; cbn [st tasks]; [exact Hwf1|exact Hb1|].
        unfold shape. cbn [loops qs tasks st]. rewrite ?Hl. cbn. rewrite Nat.eqb_refl.
        rewrite Ha1, Hp1, Hp. repeat split; exact Hq.
      * destruct Hs as [_ [Ha _]]. active_member Ha Hk. contradiction.
    + constructor; cbn [st tasks]; [exact Hwf1|exact Hb1|].
      apply (shape_congr w); cbn [loops qs tasks st]; auto.
      apply (active_remove_inactive _ _ _ Hk); reflexivity.
  - destruct (nth_error (loops w) k) as [[o|o r]|] eqn:Hk; try discriminate.
    unfold shape in Hs. destruct (loops w) as [|[o'|o' r'] [|f fs]] eqn:Hl; try contradiction.
    + destruct k; discriminate.
    + destruct k as [|[|k]]; discriminate.
    + destruct k as [|[|k]]; try discriminate. cbn in Hk. injection Hk as <- <-.
      destruct Hs as [Hq [Ha Hp]].
      unfold AsyncQueue.resume, AsyncQueue.loop_head in Hst. cbn [AsyncQueue.queue] in Hst.
      destruct (AsyncQueue.queue (qs w)) as [|o1 rest] eqn:Hqq.
      * injection Hst as <-. constructor; cbn [st tasks]; [exact Hi|exact Hb|].
        unfold shape. cbn [loops qs tasks st]. rewrite ?Hl. cbn. auto.
      * injection Hst as <-. apply start_op_cinv; cbn [st tasks loops qs AsyncQueue.isProcessing]; auto.
Qed.

Lemma creach_cinv w : creach w -> CInv w.
Proof.
  induction 1 as [|w a w' _ IH Hst]; [exact cinv_init|].
  eapply cinv_step; eassumption.
Qed.

Lemma crun_creach acts : forall w w', creach w -> crun w acts = Some w' -> creach w'.
Proof.
  induction acts as [|a acts IH]; intros w w' Hr H; simpl in H.
  - injection H as <-. exact Hr.
  - destruct (cstep w a) as [w1|] eqn:E; [|discriminate].
    apply (IH w1); [econstructor; eassumption|exact H].
Qed.

(** ** Facts about single steps *)

Lemma running_work w k t wk b ret :
  CInv w -> nth_error (tasks w) k = Some (WorkAtServer t wk b ret) ->
  pendingOperations (st w) = [work_opid wk]
  /\ exists o, loops w = [AsyncQueue.Awaiting o] /\ t = AsyncQueue.ticket o
               /\ wk = AsyncQueue.operation o.
Proof.
  intros [_ _ Hs] Hk. unfold shape in Hs.
  destruct (loops w) as [|[o|o r0] [|f fs]]; try contradiction.
  - destruct Hs as [_ [_ [Ha _]]]. active_member Ha Hk. contradiction.
  - destruct Hs as [Hq [[b' [ret' [Ha Hp]]]|[sid [r' [Ha Hp]]]]];
      active_member Ha Hk; destruct Hin as [Hin|[]]; try discriminate.
    injection Hin as Ht Hwk _ _. subst t wk. split; [exact Hp|]. exists o. auto.
  - destruct Hs as [_ [Ha _]]. active_member Ha Hk. contradiction.
Qed.

(** On an idle queue, [enqueue] runs the work up to its server call before
    returning. *)
Lemma enqueue_idle_st w wk opid :
  CInv w -> AsyncQueue.isProcessing (qs w) = false ->
  exists req tk, work_start (next w) wk (st w) = (st (enqueue_work wk opid w), req, tk).
Proof.
  intros [_ _ Hs] Hq. pose proof (shape_idle w Hs Hq) as Hl.
  pose proof (shape_idle_queue w Hs Hl) as Hqq.
  unfold enqueue_work, start_op. destruct (qs w) as [qq ip ao]; cbn in Hq, Hqq; subst qq ip.
  cbn [AsyncQueue.enqueue AsyncQueue.processQueue AsyncQueue.loop_head AsyncQueue.queue
       AsyncQueue.isProcessing AsyncQueue.ticket AsyncQueue.operation negb orb app List.length Nat.eqb st].
  destruct (work_start (next w) wk (st w)) as [[s' req] tk]. exists req, tk. reflexivity.
Qed.

Lemma absent_noop w itemId :
  (forall c, In c (read_items (st w)) -> id c <> itemId) ->
  (forall q sid now, updateQuantity itemId q sid now w = w)
  /\ (forall sid now, removeItem itemId sid now w = w).
Proof.
  intros H.
  assert (Hf : find (fun c => String.eqb (id c) itemId) (heap (st w)) (items (st w)) = None).
  { apply find_none. intros c Hc. apply String.eqb_neq. apply H; exact Hc. }
  split; intros; unfold updateQuantity, removeItem; rewrite Hf; reflexivity.
Qed.

Lemma update_start_removes t itemId q l sid opid s s' req tk :
  (q <= 0)%Z -> work_start t (UpdateWork itemId q l sid opid) s = (s', req, tk) ->
  forall c, In c (read_items s') -> id c <> itemId.
Proof.
  intros Hq Hws. unfold work_start in Hws.
  destruct (q <=? 0)%Z eqn:E; [|apply Z.leb_gt in E; lia].
  injection Hws as <- _ _. unfold read_items. cbn [heap items]. apply read_filter_other.
Qed.

(** The start of an add's work, whenever it runs, applies the optimistic
    add to the lines read at that moment. *)
Lemma add_start_read t item sid opid s s' req tk :
  wf_locs (List.length (heap s)) (items s) ->
  work_start t (AddWork item sid opid) s = (s', req, tk) ->
  exists nl, productId nl = AddArg.productId item /\ variantId nl = AddArg.variantId item
          /\ quantity nl = AddArg.quantity item
          /\ read_items s' = add_line_spec item nl (read_items s).
Proof.
  intros Hwf Hws. unfold work_start in Hws.
  destruct (option_bind _ _) as [l|] eqn:E; injection Hws as <- _ _;
    unfold read_items; cbn [heap items].
  - exists (mkItem "" (AddArg.productId item) (AddArg.variantId item) "" "" 0%float
                   (AddArg.quantity item) "" None None).
    split; [reflexivity|split; [reflexivity|split; [reflexivity|]]].
    apply add_found; [exact Hwf|exact E].
  - eexists. split; [|split; [|split]].
    4: { apply add_absent; [exact Hwf|exact E]. }
    all: reflexivity.
Qed.

(** ** C3 *)

(** C3: while an operation id is pending, [syncCart] leaves the cart alone: a
    call returns at its guard (the step changes nothing and sends no request),
    and a snapshot fetch that completes while an id is pending leaves the store
    (the item objects, [items] and the pending set) exactly as it was. *)
Theorem syncCart_noop_while_pending w :
  pendingOperations (st w) <> [] ->
  (forall sid, cstep w (CallSyncCart sid) = Some w)
  /\ (forall k resp w', cstep w (FetchReply k resp) = Some w' -> st w' = st w).
Proof.
  intros Hp. split.
  - intros sid. unfold cstep. rewrite (syncCart_pending sid _ Hp). reflexivity.
  - intros k resp w' Hst. unfold cstep in Hst.
    destruct (nth_error (tasks w) k) as [[t wk b ret|sid owner]|]; try discriminate.
    assert (Hs : syncCart_resume resp (st w) = st w).
    { unfold syncCart_resume. destruct resp as [[lines|]|e]; try reflexivity.
      destruct (pendingOperations (st w)); [exfalso; apply Hp; reflexivity|reflexivity]. }
    destruct owner as [[t r]|]; injection Hst as <-; exact Hs.
Qed.

(** ** C5 *)

(** C5 (amended): when [addItem] is called while the queue is idle, the read
    of [items] right after the call already shows the add: the first line with
    the same (productId, variantId) has its quantity increased by the given
    quantity, and when there is none a line with that pair and quantity is
    appended.  When an earlier operation is still running, the call only
    appends the work to the queue and leaves the store as it was, so the read
    right after the call does not show the add; the add is applied, to the
    lines read at that moment, when the drain loop resumes after the earlier
    operation settled and starts this work. *)
Theorem addItem_optimistic_update w item sid now :
  creach w ->
  (AsyncQueue.isProcessing (qs w) = false ->
   exists nl, productId nl = AddArg.productId item /\ variantId nl = AddArg.variantId item
          /\ quantity nl = AddArg.quantity item
          /\ read_items (st (addItem item sid now w)) = add_line_spec item nl (read_items (st w)))
  /\ (AsyncQueue.isProcessing (qs w) = true ->
      st (addItem item sid now w) = st w
      /\ exists o, AsyncQueue.queue (qs (addItem item sid now w)) = AsyncQueue.queue (qs w) ++ [o]
                   /\ exists opid, AsyncQueue.operation o = AddWork item sid opid)
  /\ (forall k w2 o rest sid' opid',
        AsyncQueue.queue (qs w) = o :: rest -> AsyncQueue.operation o = AddWork item sid' opid' ->
        cstep w (ResumeLoop k) = Some w2 ->
        (exists o0 r, nth_error (loops w) k = Some (AsyncQueue.Resumable o0 r))
        /\ exists nl, productId nl = AddArg.productId item /\ variantId nl = AddArg.variantId item
             /\ quantity nl = AddArg.quantity item
             /\ read_items (st w2) = add_line_spec item nl (read_items (st w))).
Proof.
  intros Hr. pose proof (creach_cinv w Hr) as HI. split; [|split].
  - intros Hq. unfold addItem.
    match goal with |- context [st (enqueue_work ?wk ?o w)] =>
      destruct (enqueue_idle_st w wk o HI Hq) as [req [tk Hws]];
      revert Hws; generalize (st (enqueue_work wk o w)) end.
    intros s1 Hws. exact (add_start_read _ _ _ _ _ _ _ _ (ci_items _ HI) Hws).
  - intros Hq. unfold addItem, enqueue_work, AsyncQueue.enqueue.
    cbn [AsyncQueue.isProcessing]. rewrite Hq. cbn [negb st qs AsyncQueue.queue].
    split; [reflexivity|]. eexists. split; [reflexivity|]. eexists. reflexivity.
  - intros k w2 o rest sid' opid' Hqq Hop Hst. unfold cstep in Hst.
    destruct (nth_error (loops w) k) as [[o0|o0 r]|] eqn:Hk; try discriminate.
    split; [exists o0, r; reflexivity|].
    unfold AsyncQueue.resume, AsyncQueue.loop_head in Hst. cbn [AsyncQueue.queue] in Hst.
    rewrite Hqq in Hst. injection Hst as <-. unfold start_op. rewrite Hop.
    destruct (work_start _ _ _) as [[s' req] tk] eqn:E. cbn [st].
    exact (add_start_read _ _ _ _ _ _ _ _ (ci_items _ HI) E).
Qed.

(** ** C8 *)

(** C8 (a divergence of the code): a resync called with a session id and no
    pending operation, whose fetch succeeds with a snapshot line for the
    product id ["toString"], replaces [items] by a line with no icon and no
    color, where the spec gives an unmapped product the generic ones.
    [PRODUCT_META[i.product_id] || {generic}] finds the inherited
    [Object.prototype.toString], a function, which is truthy, so the fallback
    is not taken and [meta.icon], [meta.color] are [undefined].  The
    optimistic add of the same product does give it the generic icon and
    color ([PRODUCT_META[id]?.icon || ...]). *)
Theorem syncCart_prototype_key_no_fallback :
  crun cart_init [CallSyncCart (Some "s"%string)] = Some demo_sync_call
  /\ pendingOperations (st demo_sync_call) = []
  /\ log demo_sync_call = [CRequest (mkReq "get_cart_state" (Some "s"%string))]
  /\ crun demo_sync_call [FetchReply 0 (FetchOk (Some [demo_proto_line]))] = Some demo_proto_sync
  /\ map (fun c => (productId c, icon c, color c)) (read_items (st demo_proto_sync))
     = [("toString"%string, None, None)]
  /\ map (fun c => (productId c, icon c, color c)) (read_items (st demo_proto_add))
     = [("toString"%string, Some generic_icon, Some generic_color)].
Proof. vm_compute. repeat split. Qed.

(** ** The fetch of [syncCart] *)


(** ** C9 *)

(** C9: a work of [updateQuantity] with a quantity [<= 0] leaves no line with
    that id in [items] when it runs; a call of [updateQuantity] or [removeItem]
    with an id absent from [items] returns the world unchanged (no operation
    enqueued, no request, no change of [items]); in particular, when the queue
    is idle the removal happens inside the call and a later call with the same
    id is such a no-op. *)
Theorem updateQuantity_nonpositive_removes w itemId q sid now :
  creach w -> AsyncQueue.isProcessing (qs w) = false -> (q <= 0)%Z ->
  (forall t l sid0 opid s s' req tk,
     work_start t (UpdateWork itemId q l sid0 opid) s = (s', req, tk) ->
     forall c, In c (read_items s') -> id c <> itemId)
  /\ (forall w0, (forall c, In c (read_items (st w0)) -> id c <> itemId) ->
        (forall q' sid' now', updateQuantity itemId q' sid' now' w0 = w0)
        /\ (forall sid' now', removeItem itemId sid' now' w0 = w0))
  /\ (forall c, In c (read_items (st (updateQuantity itemId q sid now w))) -> id c <> itemId)
  /\ (forall q' sid' now', updateQuantity itemId q' sid' now' (updateQuantity itemId q sid now w)
                           = updateQuantity itemId q sid now w)
  /\ (forall sid' now', removeItem itemId sid' now' (updateQuantity itemId q sid now w)
                        = updateQuantity itemId q sid now w).
Proof.
  intros Hr Hq Hle. pose proof (creach_cinv w Hr) as HI.
  assert (Habs : forall c, In c (read_items (st (updateQuantity itemId q sid now w))) -> id c <> itemId).
  { unfold updateQuantity. destruct (find _ _ _) as [[l c0]|] eqn:Hf.
    - match goal with |- context [enqueue_work ?wk ?o w] =>
        destruct (enqueue_idle_st w wk o HI Hq) as [req [tk Hws]] end.
      exact (update_start_removes _ _ _ _ _ _ _ _ _ _ Hle Hws).
    - pose proof (proj1 (find_none _ _ _) Hf) as Hf'. intros c Hc. apply String.eqb_neq. apply Hf'. exact Hc. }
  destruct (absent_noop _ _ Habs) as [H1 H2].
  split; [|split; [intros w0; exact (absent_noop w0 itemId)|split; [exact Habs|split; [exact H1|exact H2]]]].
  intros t l sid0 opid s s' req tk Hws. exact (update_start_removes _ _ _ _ _ _ _ _ _ _ Hle Hws).
Qed.

(** ** C10 *)

(** C10 (amended): at most one operation id is pending at any time, and when
    a work's server call settles its [finally] finds the pending set empty;
    the resync request [get_cart_state] is then sent exactly when the work was
    given a non-empty session id; with no session id (or an empty one) the
    work settles without any resync. *)
Theorem pending_single_and_resync w :
  creach w ->
  List.length (pendingOperations (st w)) <= 1
  /\ (forall k t wk b ret reply w',
        nth_error (tasks w) k = Some (WorkAtServer t wk b ret) ->
        cstep w (MutationReply k reply) = Some w' ->
        pendingOperations (st w') = []
        /\ match work_session wk with
           | Some x =>
               if String.eqb x "" then exists r, log w' = log w ++ [CQueue (AsyncQueue.EvSettle t r)]
               else log w' = log w ++ [CRequest (mkReq "get_cart_state" (Some x))]
           | None => exists r, log w' = log w ++ [CQueue (AsyncQueue.EvSettle t r)]
           end).
Proof.
  intros Hr. pose proof (creach_cinv w Hr) as HI. split.
  - destruct HI as [_ _ Hs]. unfold shape in Hs.
    destruct (loops w) as [|[o|o r0] [|f fs]]; try contradiction.
    + destruct Hs as [_ [_ [_ ->]]]. simpl; lia.
    + destruct Hs as [_ [[b [ret [_ ->]]]|[sid [r [_ ->]]]]]; simpl; lia.
    + destruct Hs as [_ [_ ->]]. simpl; lia.
  - intros k t wk b ret reply w' Hk Hst.
    destruct (running_work w k t wk b ret HI Hk) as [Hp _].
    unfold cstep in Hst. rewrite Hk in Hst.
    destruct (work_after_server wk b ret reply (st w)) as [s1 r] eqn:Hw.
    injection Hst as <-.
    destruct (pending_after_server _ _ _ _ _ _ _ Hw Hp) as [Hp1 _].
    unfold work_finally. rewrite (syncCart_no_pending _ _ Hp1). cbn [st].
    destruct (work_session wk) as [x|]; [destruct (String.eqb x "")|]; cbv iota;
      cbn [work_settled st log]; (split; [exact Hp1|]); try (eexists; reflexivity); reflexivity.
Qed.

(** ** C2 *)

(** C2 (a divergence of the code): the rollback of a rejected operation sets
    [items] back to the array captured at its start, but that [backup] is a
    shallow copy sharing the line objects, so an in-place [quantity +=] is not
    undone.  Run: an add of a jersey is accepted; a second add of the same
    jersey is rejected by the server.  The snapshot taken at the start of the
    failing add shows quantity 1; after its rollback [items] holds the same
    addresses, and the line shows quantity 2. *)
Theorem rollback_restores_addresses_not_contents :
  let w2 := run_from demo_idle [CallAddItem demo_jersey None "2"] in
  let w3 := run_from w2 [MutationReply 0 (Some "server error"%string)] in
  crun cart_init demo_settled = Some demo_idle
  /\ crun demo_idle [CallAddItem demo_jersey None "2"] = Some w2
  /\ crun w2 [MutationReply 0 (Some "server error"%string)] = Some w3
  /\ match nth_error (tasks w2) 0 with
     | Some (WorkAtServer _ _ backup _) => backup = items (st demo_idle) /\ items (st w3) = backup
     | _ => False
     end
  /\ match log w3 with
     | [] => False
     | _ => last (log w3) (CRequest (mkReq "" None))
            = CQueue (AsyncQueue.EvSettle 1 (AsyncQueue.Rejected "server error"%string))
     end
  /\ map quantity (read_items (st demo_idle)) = [1%Z]
  /\ map quantity (read_items (st w3)) = [2%Z].
Proof. vm_compute. repeat split. Qed.

(** ** The claims that fail as stated *)

(** C5 as stated fails: while an earlier add is at the server, a second
    [addItem] only queues its work; the read right after the call does not
    show the new line. *)
Lemma addItem_busy_counterexample :
  ~ (forall w item sid now, creach w ->
       exists nl, productId nl = AddArg.productId item /\ variantId nl = AddArg.variantId item
         /\ quantity nl = AddArg.quantity item
         /\ read_items (st (addItem item sid now w)) = add_line_spec item nl (read_items (st w))).
Proof.
  intros H.
  assert (Hr : creach demo_busy)
    by (apply (crun_creach [CallAddItem demo_jersey (Some "s"%string) "1"] cart_init);
        [constructor|reflexivity]).
  destruct (H demo_busy demo_other None "2"%string Hr) as [nl [_ [_ [_ Heq]]]].
  apply (f_equal (@List.length _)) in Heq. vm_compute in Heq. discriminate.
Qed.

(** C10 as stated fails: an add made with no session id settles without any
    resync request. *)
Lemma resync_null_session_counterexample :
  ~ (forall w k reply w', creach w -> cstep w (MutationReply k reply) = Some w' ->
       exists x, log w' = log w ++ [CRequest (mkReq "get_cart_state" (Some x))]).
Proof.
  intros H.
  pose (acts := [CallAddItem demo_jersey None "1"]).
  assert (Hr : creach (run_from cart_init acts))
    by (apply (crun_creach acts cart_init); [constructor|reflexivity]).
  destruct (H _ 0 None (run_from (run_from cart_init acts) [MutationReply 0 None])
              Hr ltac:(vm_compute; reflexivity)) as [x Hx].
  vm_compute in Hx. discriminate Hx.
Qed.

(** ** The theorems on concrete runs of the store *)

Lemma creach_demo_idle : creach demo_idle.
Proof. apply (crun_creach demo_settled cart_init); [constructor|reflexivity]. Qed.

Lemma syncCart_noop_while_pending_witness :
  pendingOperations (st demo_busy) <> []
  /\ (forall sid, cstep demo_busy (CallSyncCart sid) = Some demo_busy)
  /\ (forall k resp w', cstep demo_busy (FetchReply k resp) = Some w' -> st w' = st demo_busy).
Proof.
  assert (Hp : pendingOperations (st demo_busy) <> []) by (vm_compute; discriminate).
  split; [exact Hp|exact (syncCart_noop_while_pending demo_busy Hp)].
Defined.

Lemma addItem_optimistic_update_witness :
  creach demo_busy /\ AsyncQueue.isProcessing (qs demo_busy) = true
  /\ st (addItem demo_other None "2" demo_busy) = st demo_busy
  /\ creach demo_idle /\ AsyncQueue.isProcessing (qs demo_idle) = false
  /\ exists nl, productId nl = AddArg.productId demo_other
          /\ variantId nl = AddArg.variantId demo_other
          /\ quantity nl = AddArg.quantity demo_other
          /\ read_items (st (addItem demo_other None "2" demo_idle))
             = add_line_spec demo_other nl (read_items (st demo_idle)).
Proof.
  assert (Hb : creach demo_busy)
    by (apply (crun_creach [CallAddItem demo_jersey (Some "s"%string) "1"] cart_init);
        [constructor|reflexivity]).
  assert (Hqb : AsyncQueue.isProcessing (qs demo_busy) = true) by (vm_compute; reflexivity).
  assert (Hq : AsyncQueue.isProcessing (qs demo_idle) = false) by (vm_compute; reflexivity).
  split; [exact Hb|split; [exact Hqb|split]].
  - exact (proj1 (proj1 (proj2 (addItem_optimistic_update demo_busy demo_other None "2" Hb)) Hqb)).
  - split; [exact creach_demo_idle|split; [exact Hq|]].
    exact (proj1 (addItem_optimistic_update demo_idle demo_other None "2" creach_demo_idle) Hq).
Defined.


Lemma updateQuantity_nonpositive_removes_witness :
  let itemId := cart_line_id "curry-warriors-jersey" "M" in
  let w1 := updateQuantity itemId 0 None "2" demo_idle in
  creach demo_idle /\ AsyncQueue.isProcessing (qs demo_idle) = false /\ (0 <= 0)%Z
  /\ (forall t l sid0 opid s s' req tk,
        work_start t (UpdateWork itemId 0 l sid0 opid) s = (s', req, tk) ->
        forall c, In c (read_items s') -> id c <> itemId)
  /\ (forall w0, (forall c, In c (read_items (st w0)) -> id c <> itemId) ->
        (forall q' sid' now', updateQuantity itemId q' sid' now' w0 = w0)
        /\ (forall sid' now', removeItem itemId sid' now' w0 = w0))
  /\ (forall c, In c (read_items (st w1)) -> id c <> itemId)
  /\ (forall q' sid' now', updateQuantity itemId q' sid' now' w1 = w1)
  /\ (forall sid' now', removeItem itemId sid' now' w1 = w1).
Proof.
  intros itemId w1.
  assert (Hq : AsyncQueue.isProcessing (qs demo_idle) = false) by (vm_compute; reflexivity).
  assert (Hle : (0 <= 0)%Z) by lia.
  split; [exact creach_demo_idle|split; [exact Hq|split; [exact Hle|]]].
  exact (updateQuantity_nonpositive_removes demo_idle itemId 0 None "2" creach_demo_idle Hq Hle).
Defined.

Lemma pending_single_and_resync_witness :
  creach demo_busy
  /\ List.length (pendingOperations (st demo_busy)) <= 1
  /\ (forall k t wk b ret reply w',
        nth_error (tasks demo_busy) k = Some (WorkAtServer t wk b ret) ->
        cstep demo_busy (MutationReply k reply) = Some w' ->
        pendingOperations (st w') = []
        /\ match work_session wk with
           | Some x =>
               if String.eqb x "" then
                 exists r, log w' = log demo_busy ++ [CQueue (AsyncQueue.EvSettle t r)]
               else log w' = log demo_busy ++ [CRequest (mkReq "get_cart_state" (Some x))]
           | None => exists r, log w' = log demo_busy ++ [CQueue (AsyncQueue.EvSettle t r)]
           end).
Proof.
  assert (Hr : creach demo_busy)
    by (apply (crun_creach [CallAddItem demo_jersey (Some "s"%string) "1"] cart_init);
        [constructor|reflexivity]).
  split; [exact Hr|exact (pending_single_and_resync demo_busy Hr)].
Defined.

End CartProofs.

(** * The queue's status and bookkeeping *)
Module QueueStatus.
Import AsyncQueue QueueProofs.

Section Status.
Context {W V E : Type} (mk_error : string -> E).

(** [activeOperation] names the operation of the live drain frame, and is
    [null] when there is none. *)
Lemma reach_active (w : @world W V E) :
  reach mk_error w ->
  (loops w = [] -> activeOperation (q w) = None)
  /\ (forall f, loops w = [f] -> activeOperation (q w) = Some (id (frame_op f))).
Proof.
  induction 1 as [|w a w' Hr IH Hst]; [split; [reflexivity|discriminate]|].
  pose proof (reach_inv mk_error w Hr) as [Hshape _ _ _ _ _ _ _ _].
  destruct w as [[qu isP act] ls n tr]; cbn in *.
  destruct a as [i wk|k r|k|]; unfold qstep in Hst; cbn in Hst.
  - unfold enqueue, processQueue, loop_head in Hst. cbn in Hst.
    destruct isP; cbn in Hst.
    + injection Hst as <-. exact IH.
    + destruct Hshape as [[-> [_ ->]]|[f [_ Habs]]]; [|discriminate].
      cbn in Hst. injection Hst as <-. cbn. split; [discriminate|].
      intros f Hf. injection Hf as <-. reflexivity.
  - destruct (nth_error ls k) as [[o|o r0]|] eqn:Hk; try discriminate.
    injection Hst as <-. cbn.
    destruct Hshape as [[-> _]|[f [-> _]]]; [destruct k; discriminate|].
    destruct k as [|[|k]]; try discriminate. cbn in Hk |- *. injection Hk as ->.
    split; [discriminate|]. intros f' Hf'. injection Hf' as <-. cbn.
    exact (proj2 IH (Awaiting o) eq_refl).
  - destruct (nth_error ls k) as [[o|o r]|] eqn:Hk; try discriminate.
    destruct Hshape as [[-> _]|[f [-> _]]]; [destruct k; discriminate|].
    destruct k as [|[|k]]; try discriminate.
    unfold resume, loop_head in Hst. cbn in Hst.
    destruct qu as [|o' rest]; injection Hst as <-; cbn.
    + split; [reflexivity|discriminate].
    + split; [discriminate|]. intros f' Hf'. injection Hf' as <-. reflexivity.
  - unfold clear in Hst. injection Hst as <-. exact IH.
Qed.

Lemma start_tickets_In t (tr : list (@event V E)) : In t (start_tickets tr) <-> started t tr.
Proof.
  unfold started, start_tickets. induction tr as [|e tr IH]; cbn; [tauto|].
  rewrite in_app_iff, IH. destruct e; cbn; intuition congruence.
Qed.

Lemma cancel_tickets_In t (tr : list (@event V E)) : In t (cancel_tickets tr) <-> cancelled t tr.
Proof.
  unfold cancelled, cancel_tickets. induction tr as [|e tr IH]; cbn.
  - split; [tauto|intros [e []]].
  - rewrite in_app_iff, IH. split.
    + intros [H|[e0 H]]; [|exists e0; right; exact H].
      destruct e; cbn in H; try contradiction. destruct H as [<-|[]].
      eexists; left; reflexivity.
    + intros [e0 [H|H]]; [|right; exists e0; exact H]. subst e. left. left. reflexivity.
Qed.

Lemma existsb_eqb_In t l : existsb (Nat.eqb t) l = true <-> In t l.
Proof.
  rewrite existsb_exists. split.
  - intros [x [Hx He]]. apply Nat.eqb_eq in He. subst. exact Hx.
  - intros Hx. exists t. split; [exact Hx|apply Nat.eqb_refl].
Qed.

Lemma waiting_tickets_In (w : @world W V E) t :
  In t (waiting_tickets w) <-> t < next w /\ ~ started t (trace w) /\ ~ cancelled t (trace w).
Proof.
  unfold waiting_tickets. rewrite filter_In, in_seq, andb_true_iff, !negb_true_iff.
  rewrite <- start_tickets_In, <- cancel_tickets_In, <- !existsb_eqb_In.
  split.
  - intros [[_ Ht] [H1 H2]]. rewrite H1, H2. repeat split; [lia|discriminate|discriminate].
  - intros [Ht [H1 H2]]. split; [lia|].
    split; apply not_true_is_false; assumption.
Qed.

Lemma StronglySorted_filter {A} (R : A -> A -> Prop) (p : A -> bool) :
  forall l, StronglySorted R l -> StronglySorted R (filter p l).
Proof.
  induction l as [|x l IH]; intros Hs; cbn; [constructor|].
  inversion Hs as [|? ? Hs' Hf]; subst.
  destruct (p x); [|apply IH; exact Hs'].
  constructor; [apply IH; exact Hs'|].
  rewrite Forall_forall in Hf |- *. intros y Hy. apply filter_In in Hy. apply Hf; tauto.
Qed.

Lemma StronglySorted_seq s n : StronglySorted lt (seq s n).
Proof.
  revert s. induction n as [|n IH]; intros s; cbn; constructor; [apply IH|].
  apply Forall_forall. intros y Hy. apply in_seq in Hy. lia.
Qed.

Lemma StronglySorted_lt_ext :
  forall l1 l2, StronglySorted lt l1 -> StronglySorted lt l2 ->
  (forall x, In x l1 <-> In x l2) -> l1 = l2.
Proof.
  induction l1 as [|a l1 IH]; intros [|b l2] H1 H2 Hx; try reflexivity.
  - exfalso. apply (proj2 (Hx b)). left; reflexivity.
  - exfalso. apply (proj1 (Hx a)). left; reflexivity.
  - inversion H1 as [|? ? H1' Ha]; inversion H2 as [|? ? H2' Hb]; subst.
    rewrite Forall_forall in Ha, Hb.
    assert (Hab : a = b).
    { destruct (proj1 (Hx a) (or_introl eq_refl)) as [->|Ha2]; [reflexivity|].
      destruct (proj2 (Hx b) (or_introl eq_refl)) as [->|Hb1]; [reflexivity|].
      specialize (Ha _ Hb1). specialize (Hb _ Ha2). lia. }
    subst b. f_equal. apply IH; [exact H1'|exact H2'|].
    intros x. split; intros Hin.
    + destruct (proj1 (Hx x) (or_intror Hin)) as [->|H]; [|exact H].
      specialize (Ha _ Hin). lia.
    + destruct (proj2 (Hx x) (or_intror Hin)) as [->|H]; [|exact H].
      specialize (Hb _ Hin). lia.
Qed.

Lemma StronglySorted_map {A B} (R : B -> B -> Prop) (f : A -> B) :
  forall l, StronglySorted (fun a b => R (f a) (f b)) l -> StronglySorted R (map f l).
Proof.
  induction l as [|x l IH]; intros Hs; cbn; [constructor|].
  inversion Hs as [|? ? Hs' Hf]; subst. constructor; [apply IH; exact Hs'|].
  apply Forall_map. exact Hf.
Qed.

(** X1: what [getStatus()] reports in every reachable state: when
    [isProcessing] is false the queue is empty, [activeOperation] is [null]
    and no drain loop is live; when it is true there is exactly one live
    drain loop and [activeOperation] is the id of the operation it runs. *)
Theorem getStatus_reflects_drain (w : @world W V E) :
  reach mk_error w ->
  let '(queueLength, processing, active) := getStatus (q w) in
  (processing = false -> queueLength = 0 /\ active = None /\ loops w = [])
  /\ (processing = true -> exists f, loops w = [f] /\ active = Some (id (frame_op f))).
Proof.
  intros Hr. pose proof (reach_inv mk_error w Hr) as [Hshape _ _ _ _ _ _ _ _].
  destruct (reach_active w Hr) as [H0 H1]. unfold getStatus.
  split; intros Hp.
  - destruct Hshape as [[Hl [_ Hq]]|[f [_ Habs]]]; [|congruence].
    rewrite Hq, (H0 Hl). auto.
  - destruct Hshape as [[_ [Habs _]]|[f [Hl _]]]; [congruence|].
    exists f. split; [exact Hl|]. apply H1; exact Hl.
Qed.

(** X2: in every reachable state the pending queue holds exactly the
    operations enqueued so far whose work was neither called nor cancelled,
    in the order of their [enqueue] calls; so [getStatus().queueLength]
    counts them. *)
Theorem queue_holds_waiting_operations (w : @world W V E) :
  reach mk_error w ->
  map ticket (queue (q w)) = waiting_tickets w
  /\ List.length (queue (q w)) = List.length (waiting_tickets w).
Proof.
  intros Hr. pose proof (reach_inv mk_error w Hr) as [_ Hpend Hsort _ _ _ _ Hcover _].
  assert (Heq : map ticket (queue (q w)) = waiting_tickets w).
  { apply StronglySorted_lt_ext.
    - apply StronglySorted_map. exact Hsort.
    - apply StronglySorted_filter, StronglySorted_seq.
    - intros t. rewrite waiting_tickets_In, in_map_iff. split.
      + intros [o [<- Ho]]. destruct (Hpend o Ho) as (H1 & H2 & H3 & _). auto.
      + intros [Ht [H1 H2]].
        destruct (Hcover t Ht) as [[o [Ho Hto]]|[H|H]]; [|contradiction|contradiction].
        exists o. auto. }
  split; [exact Heq|]. rewrite <- Heq, length_map. reflexivity.
Qed.

(** X3: no operation is both started and cancelled: an operation
    rejected by [clear()] never has its work called, and one whose work was
    called is never rejected by [clear()]. *)
Theorem cancelled_never_started (w : @world W V E) :
  reach mk_error w -> forall t, ~ (started t (trace w) /\ cancelled t (trace w)).
Proof. intros Hr t [Hs Hc]. exact (reach_start_cancel_disjoint mk_error w Hr t Hs Hc). Qed.

End Status.

Lemma getStatus_reflects_drain_witness :
  let w := demo_world [AEnqueue "a" tt; AEnqueue "b" tt] in
  reach (fun s => s) w /\
  let '(queueLength, processing, active) := getStatus (q w) in
  (processing = false -> queueLength = 0 /\ active = None /\ loops w = [])
  /\ (processing = true -> exists f, loops w = [f] /\ active = Some (id (frame_op f))).
Proof.
  intros w.
  assert (Hr : reach (fun s => s) w)
    by (apply (run_reach (fun s => s) w0 w [AEnqueue "a" tt; AEnqueue "b" tt]);
        [constructor|reflexivity]).
  split; [exact Hr|exact (getStatus_reflects_drain (fun s => s) w Hr)].
Defined.

Lemma queue_holds_waiting_operations_witness :
  let w := demo_world [AEnqueue "a" tt; AEnqueue "b" tt; AEnqueue "c" tt] in
  reach (fun s => s) w /\
  map ticket (queue (q w)) = waiting_tickets w
  /\ List.length (queue (q w)) = List.length (waiting_tickets w).
Proof.
  intros w.
  assert (Hr : reach (fun s => s) w)
    by (apply (run_reach (fun s => s) w0 w [AEnqueue "a" tt; AEnqueue "b" tt; AEnqueue "c" tt]);
        [constructor|reflexivity]).
  split; [exact Hr|exact (queue_holds_waiting_operations (fun s => s) w Hr)].
Defined.

Lemma cancelled_never_started_witness :
  let w := demo_world [AEnqueue "a" tt; AEnqueue "b" tt; AClear] in
  reach (fun s => s) w /\ forall t, ~ (started t (trace w) /\ cancelled t (trace w)).
Proof.
  intros w.
  assert (Hr : reach (fun s => s) w)
    by (apply (run_reach (fun s => s) w0 w [AEnqueue "a" tt; AEnqueue "b" tt; AClear]);
        [constructor|reflexivity]).
  split; [exact Hr|exact (cancelled_never_started (fun s => s) w Hr)].
Defined.

End QueueStatus.

(** * The store's getters and the effect of each cart call *)
Module CartGetters.
Import CartStore CartProofs.
Local Open Scope list_scope.

(** ** Helpers *)

Lemma enqueue_busy_st w wk opid :
  AsyncQueue.isProcessing (qs w) = true -> st (enqueue_work wk opid w) = st w.
Proof.
  intros Hq. unfold enqueue_work, AsyncQueue.enqueue. cbn [AsyncQueue.isProcessing].
  rewrite Hq. reflexivity.
Qed.

Lemma enqueue_idle_task w wk opid :
  CInv w -> AsyncQueue.isProcessing (qs w) = false ->
  exists req ret,
    work_start (next w) wk (st w)
    = (st (enqueue_work wk opid w), req, WorkAtServer (next w) wk (items (st w)) ret)
    /\ tasks (enqueue_work wk opid w) = tasks w ++ [WorkAtServer (next w) wk (items (st w)) ret].
Proof.
  intros HI Hq. pose proof HI as [Hi _ Hs]. pose proof (shape_idle w Hs Hq) as Hl.
  pose proof (shape_idle_queue w Hs Hl) as Hqq.
  unfold enqueue_work, start_op. destruct (qs w) as [qq ip ao]; cbn in Hq, Hqq; subst qq ip.
  cbn [AsyncQueue.enqueue AsyncQueue.processQueue AsyncQueue.loop_head AsyncQueue.queue
       AsyncQueue.isProcessing AsyncQueue.ticket AsyncQueue.operation negb orb app List.length
       Nat.eqb st tasks].
  destruct (work_start (next w) wk (st w)) as [[s' req] tk] eqn:E.
  destruct (work_start_inv _ _ _ _ _ _ E Hi) as [[ret ->] _].
  exists req, ret. split; reflexivity.
Qed.

Lemma nth_error_remove_nth_other {A} :
  forall (l : list A) k k' y, nth_error l k' = Some y -> k <> k' -> In y (remove_nth k l).
Proof.
  induction l as [|x l IH]; intros [|k] [|k'] y Hy Hne; cbn in *; try discriminate; try congruence.
  - eapply nth_error_In; exact Hy.
  - injection Hy as ->. left; reflexivity.
  - right. apply (IH k k'); [exact Hy|congruence].
Qed.

(** Only one task belongs to the running operation. *)
Lemma work_at_server_unique w k k' t wk b ret t' wk' b' ret' :
  CInv w -> nth_error (tasks w) k = Some (WorkAtServer t wk b ret) ->
  nth_error (tasks w) k' = Some (WorkAtServer t' wk' b' ret') -> k = k'.
Proof.
  intros [_ _ Hs] Hk Hk'.
  destruct (Nat.eq_dec k k') as [->|Hne]; [reflexivity|exfalso].
  assert (Ha : exists tk, active_tasks (tasks w) = [tk]).
  { unfold shape in Hs. destruct (loops w) as [|[o|o r0] [|f fs]]; try contradiction.
    - destruct Hs as [_ [_ [Ha _]]]. active_member Ha Hk. contradiction.
    - destruct Hs as [_ [[b0 [r0 [Ha _]]]|[sid [r0 [Ha _]]]]]; eexists; exact Ha.
    - destruct Hs as [_ [Ha _]]. active_member Ha Hk. contradiction. }
  destruct Ha as [tk Ha].
  active_member Ha Hk. destruct Hin as [->|[]].
  pose proof (active_remove_single _ _ _ Hk Ha) as H0.
  pose proof (nth_error_remove_nth_other _ _ _ _ Hk' Hne) as Hin.
  pose proof (active_in _ _ Hin eq_refl) as Hin'. rewrite H0 in Hin'. exact Hin'.
Qed.

Lemma mutation_reply_reject w k t wk b ret e w2 :
  nth_error (tasks w) k = Some (WorkAtServer t wk b ret) ->
  cstep w (MutationReply k (Some e)) = Some w2 ->
  st w2 = mkStore (heap (st w)) b (set_delete (work_opid wk) (pendingOperations (st w))).
Proof.
  intros Hk Hst. unfold cstep in Hst. rewrite Hk in Hst. cbn in Hst.
  unfold work_finally in Hst. cbn [st] in Hst.
  destruct (syncCart _ _); injection Hst as <-; reflexivity.
Qed.

Lemma mutation_reply_exists w k t wk b ret reply :
  nth_error (tasks w) k = Some (WorkAtServer t wk b ret) ->
  exists w2, cstep w (MutationReply k reply) = Some w2.
Proof.
  intros Hk. unfold cstep. rewrite Hk.
  destruct (work_after_server _ _ _ _ _). eexists; reflexivity.
Qed.

Lemma read_length h ls : Forall (fun l => l < List.length h) ls -> List.length (read h ls) = List.length ls.
Proof.
  induction 1 as [|l ls Hl _ IH]; [reflexivity|].
  destruct (read_valid h l ls Hl) as [c [_ ->]]. cbn. rewrite IH. reflexivity.
Qed.

Lemma fold_sum (f : CartItem -> Z) :
  forall l a, fold_left (fun t c => (t + f c)%Z) l a = (a + fold_left (fun t c => (t + f c)%Z) l 0)%Z.
Proof.
  induction l as [|c l IH]; intros a; cbn [fold_left]; [lia|].
  rewrite (IH (a + f c)%Z), (IH (0 + f c)%Z). lia.
Qed.

Lemma fold_sum_cons (f : CartItem -> Z) c l :
  fold_left (fun t c => (t + f c)%Z) (c :: l) 0%Z = (f c + fold_left (fun t c => (t + f c)%Z) l 0)%Z.
Proof. cbn. rewrite fold_sum. lia. Qed.

Lemma count_add_line_spec item nl :
  quantity nl = AddArg.quantity item ->
  forall cs, fold_left (fun t c => (t + quantity c)%Z) (add_line_spec item nl cs) 0%Z
             = (fold_left (fun t c => (t + quantity c)%Z) cs 0 + AddArg.quantity item)%Z.
Proof.
  intros Hq. induction cs as [|c cs IH]; [cbn; lia|].
  cbn [add_line_spec].
  destruct (String.eqb (productId c) (AddArg.productId item)
            && String.eqb (variantId c) (AddArg.variantId item)).
  - rewrite !fold_sum_cons. cbn [quantity with_quantity]. lia.
  - rewrite !fold_sum_cons, IH. lia.
Qed.

(** The optimistic add on an idle queue, with the line it creates. *)
Lemma addItem_idle_read w item sid now :
  CInv w -> AsyncQueue.isProcessing (qs w) = false ->
  read_items (st (addItem item sid now w))
  = add_line_spec item
      (mkItem (cart_line_id (AddArg.productId item) (AddArg.variantId item))
              (AddArg.productId item) (AddArg.variantId item) (AddArg.name item)
              (AddArg.variant item) (AddArg.price item) (AddArg.quantity item)
              (AddArg.imageUrl item)
              (Some (js_or (option_bind (PRODUCT_META (AddArg.productId item)) meta_icon) generic_icon))
              (Some (js_or (option_bind (PRODUCT_META (AddArg.productId item)) meta_color) generic_color)))
      (read_items (st w)).
Proof.
  intros HI Hq. unfold addItem.
  match goal with |- context [st (enqueue_work ?wk ?o w)] =>
    destruct (enqueue_idle_st w wk o HI Hq) as [req [tk Hws]];
    revert Hws; generalize (st (enqueue_work wk o w)) end.
  intros s1 Hws. unfold work_start in Hws.
  destruct (option_bind _ _) as [l|] eqn:E; injection Hws as <- _ _;
    unfold read_items; cbn [heap items].
  - apply add_found; [exact (ci_items _ HI)|exact E].
  - apply add_absent; [exact (ci_items _ HI)|exact E].
Qed.

Lemma find_read p h :
  forall ls, option_map snd (find p h ls) = List.find p (read h ls).
Proof.
  induction ls as [|l ls IH]; [reflexivity|]. cbn.
  destruct (nth_error h l) as [c|]; cbn; [destruct (p c); [reflexivity|]|]; exact IH.
Qed.

Lemma findIndex_absent p h :
  forall ls, (forall c, In c (read h ls) -> p c = false) -> findIndex p h ls = None.
Proof.
  induction ls as [|l ls IH]; intros H; [reflexivity|]. cbn in *.
  destruct (nth_error h l) as [c|]; cbn in H.
  - rewrite (H c (or_introl eq_refl)). rewrite IH; [reflexivity|]. intros c' Hc'. apply H. right; exact Hc'.
  - rewrite IH; [reflexivity|exact H].
Qed.

Lemma read_cons h l ls :
  read h (l :: ls) = match nth_error h l with Some c => [c] | None => [] end ++ read h ls.
Proof. reflexivity. Qed.

Lemma read_filter_eq h itemId :
  forall ls, read h (filter (other_id h itemId) ls)
             = filter (fun c => negb (String.eqb (id c) itemId)) (read h ls).
Proof.
  induction ls as [|l ls IH]; [reflexivity|]. cbn [filter]. rewrite read_cons.
  unfold other_id at 1. destruct (nth_error h l) as [c|] eqn:E.
  - destruct (negb (String.eqb (id c) itemId)) eqn:Hn; cbn [app filter];
      rewrite ?read_cons, ?E, ?Hn, IH; reflexivity.
  - rewrite read_cons, E. exact IH.
Qed.

Lemma filter_all_kept itemId :
  forall cs, (forall c, In c cs -> String.eqb (id c) itemId = false) ->
  filter (fun c => negb (String.eqb (id c) itemId)) cs = cs.
Proof.
  induction cs as [|c cs IH]; intros H; [reflexivity|]. cbn.
  rewrite (H c (or_introl eq_refl)). cbn. f_equal. apply IH. intros c' Hc'. apply H. right; exact Hc'.
Qed.

Lemma set_quantity_first_absent itemId q :
  forall cs, (forall c, In c cs -> String.eqb (id c) itemId = false) ->
  set_quantity_first itemId q cs = cs.
Proof.
  induction cs as [|c cs IH]; intros H; [reflexivity|]. cbn.
  rewrite (H c (or_introl eq_refl)). f_equal. apply IH. intros c' Hc'. apply H. right; exact Hc'.
Qed.

Lemma read_update_first itemId q h :
  forall ls l c, wf_locs (List.length h) ls ->
  find (fun c => String.eqb (id c) itemId) h ls = Some (l, c) ->
  read (update_nth l (fun c => with_quantity c q) h) ls = set_quantity_first itemId q (read h ls).
Proof.
  induction ls as [|l0 ls IH]; intros l c [Hnd Hf] Hl; [discriminate|].
  inversion Hnd as [|? ? Hnin Hnd']; subst. inversion Hf as [|? ? Hl0 Hf']; subst.
  destruct (read_valid h l0 ls Hl0) as [c0 [Hc0 Hr]]. rewrite Hr.
  cbn in Hl. rewrite Hc0 in Hl. cbn [set_quantity_first].
  destruct (String.eqb (id c0) itemId) eqn:Hs.
  - injection Hl as <- <-. rewrite read_cons, (nth_error_update_nth_eq _ h l0 c0 Hc0).
    cbn [app]. f_equal. apply read_heap_ext. intros l' Hl'.
    apply nth_error_update_nth_neq. intros ->. contradiction.
  - assert (Hin : In l ls).
    { clear -Hl. induction ls as [|l1 ls IHl]; [discriminate|]. cbn in Hl.
      destruct (nth_error h l1) as [c1|]; [destruct (String.eqb (id c1) itemId)|].
      - injection Hl as <- _. left; reflexivity.
      - right; apply IHl; exact Hl.
      - right; apply IHl; exact Hl. }
    rewrite read_cons, nth_error_update_nth_neq by (intros ->; contradiction).
    rewrite Hc0. cbn [app]. f_equal. apply (IH l c); [split; assumption|exact Hl].
Qed.

Lemma product_icon_js_or pid :
  js_or (option_bind (PRODUCT_META pid) meta_icon) generic_icon = product_icon pid
  /\ js_or (option_bind (PRODUCT_META pid) meta_color) generic_color = product_color pid.
Proof.
  unfold product_icon, product_color.
  destruct (PRODUCT_META pid) as [[i c|]|] eqn:E.
  - unfold PRODUCT_META in E.
    repeat match type of E with
           | context [if ?b then _ else _] => destruct b
           end; try discriminate; injection E as <- <-; split; reflexivity.
  - split; reflexivity.
  - split; reflexivity.
Qed.


(** Name the store an idle [enqueue_work] leaves, with the start of the work
    that produced it. *)
Ltac idle_start HI Hq :=
  match goal with |- context [st (enqueue_work ?wk ?o ?w)] =>
    let req := fresh "req" in let tk := fresh "tk" in let Hws := fresh "Hws" in
    destruct (enqueue_idle_st w wk o HI Hq) as [req [tk Hws]];
    revert Hws; generalize (st (enqueue_work wk o w)); intros ?s1 Hws; unfold work_start in Hws
  end.

(** A rejection right after an idle start restores the read of [items] when
    the start left the objects of [backup] as they were. *)
Lemma reject_after_idle_enqueue w wk opid e :
  CInv w -> AsyncQueue.isProcessing (qs w) = false ->
  read (heap (st (enqueue_work wk opid w))) (items (st w)) = read_items (st w) ->
  exists w2, cstep (enqueue_work wk opid w) (MutationReply (List.length (tasks w)) (Some e)) = Some w2
             /\ read_items (st w2) = read_items (st w).
Proof.
  intros HI Hq Hread.
  destruct (enqueue_idle_task w wk opid HI Hq) as [req [ret [_ Ht]]].
  assert (Hk : nth_error (tasks (enqueue_work wk opid w)) (List.length (tasks w))
               = Some (WorkAtServer (next w) wk (items (st w)) ret)).
  { rewrite Ht, nth_error_app2, Nat.sub_diag by lia. reflexivity. }
  destruct (mutation_reply_exists _ _ _ _ _ _ (Some e) Hk) as [w2 Hw2].
  exists w2. split; [exact Hw2|].
  rewrite (mutation_reply_reject _ _ _ _ _ _ _ _ Hk Hw2). exact Hread.
Qed.

Lemma find_some_of_member p h ls c :
  In c (read h ls) -> p c = true -> exists l c', find p h ls = Some (l, c').
Proof.
  intros Hc Hp. destruct (find p h ls) as [[l c']|] eqn:Hf; [eauto|].
  pose proof (proj1 (find_none _ _ _) Hf c Hc). congruence.
Qed.

(** X4: at any time at most one cart mutation (add, remove, update or
    clear) is waiting on its server call. *)
Theorem single_mutation_at_server w k k' t wk b ret t' wk' b' ret' :
  creach w -> nth_error (tasks w) k = Some (WorkAtServer t wk b ret) ->
  nth_error (tasks w) k' = Some (WorkAtServer t' wk' b' ret') -> k = k'.
Proof.
  intros Hr. exact (work_at_server_unique w k k' t wk b ret t' wk' b' ret' (creach_cinv w Hr)).
Qed.

(** X5: while a mutation waits on its server call, every step other than
    the reply to that call leaves the store (item objects, [items] and the
    pending ids) unchanged: later cart calls only queue their work, and
    resync calls or fetches change nothing. *)
Theorem store_frozen_while_at_server w k t wk b ret a w' :
  creach w -> nth_error (tasks w) k = Some (WorkAtServer t wk b ret) ->
  cstep w a = Some w' -> (exists reply, a = MutationReply k reply) \/ st w' = st w.
Proof.
  intros Hr Hk Hst. pose proof (creach_cinv w Hr) as HI.
  destruct (running_work w k t wk b ret HI Hk) as [Hp [o [Hl _]]].
  assert (Hq : AsyncQueue.isProcessing (qs w) = true)
    by (pose proof (ci_shape _ HI) as Hs; unfold shape in Hs; rewrite Hl in Hs; tauto).
  assert (Hp' : pendingOperations (st w) <> []) by (rewrite Hp; discriminate).
  destruct a as [item sid now|itemId sid now|itemId q sid now|sid now|sid| |k' reply|k' resp|k'];
    unfold cstep in Hst.
  - right. injection Hst as <-. apply enqueue_busy_st; exact Hq.
  - right. injection Hst as <-. unfold removeItem.
    destruct (find _ _ _) as [[l c]|]; [apply enqueue_busy_st; exact Hq|reflexivity].
  - right. injection Hst as <-. unfold updateQuantity.
    destruct (find _ _ _) as [[l c]|]; [apply enqueue_busy_st; exact Hq|reflexivity].
  - right. injection Hst as <-. apply enqueue_busy_st; exact Hq.
  - right. rewrite (syncCart_pending sid _ Hp') in Hst. injection Hst as <-. reflexivity.
  - right. destruct (AsyncQueue.clear (qs w)). injection Hst as <-. reflexivity.
  - left. destruct (nth_error (tasks w) k') as [[t' wk' b' ret'|sid owner]|] eqn:Hk';
      try discriminate.
    rewrite (work_at_server_unique w k k' t wk b ret t' wk' b' ret' HI Hk Hk').
    exists reply. reflexivity.
  - right. destruct (nth_error (tasks w) k') as [[t' wk' b' ret'|sid owner]|]; try discriminate.
    assert (Hs : syncCart_resume resp (st w) = st w).
    { unfold syncCart_resume. destruct resp as [[lines|]|e]; try reflexivity.
      destruct (pendingOperations (st w)); [contradiction|reflexivity]. }
    destruct owner as [[t' r]|]; injection Hst as <-; exact Hs.
  - right. rewrite Hl in Hst. destruct k' as [|[|k']]; discriminate.
Qed.


(** X6: on an idle queue, when the server rejects the call of a
    [removeItem] of a present line, of an [updateQuantity] to a non-positive
    quantity of a present line, of a [clearCart], or of an [addItem] of a
    (productId, variantId) pair not in the cart, the rollback gives back
    exactly the lines read before the call. *)
Theorem rejected_start_restores_items w sid now e :
  creach w -> AsyncQueue.isProcessing (qs w) = false ->
  (forall itemId, (exists c, In c (read_items (st w)) /\ id c = itemId) ->
     exists w2, cstep (removeItem itemId sid now w) (MutationReply (List.length (tasks w)) (Some e))
                = Some w2 /\ read_items (st w2) = read_items (st w))
  /\ (forall itemId q, (q <= 0)%Z -> (exists c, In c (read_items (st w)) /\ id c = itemId) ->
     exists w2, cstep (updateQuantity itemId q sid now w) (MutationReply (List.length (tasks w)) (Some e))
                = Some w2 /\ read_items (st w2) = read_items (st w))
  /\ (exists w2, cstep (clearCart sid now w) (MutationReply (List.length (tasks w)) (Some e))
                 = Some w2 /\ read_items (st w2) = read_items (st w))
  /\ (forall item, (forall c, In c (read_items (st w)) ->
                      productId c <> AddArg.productId item \/ variantId c <> AddArg.variantId item) ->
     exists w2, cstep (addItem item sid now w) (MutationReply (List.length (tasks w)) (Some e))
                = Some w2 /\ read_items (st w2) = read_items (st w)).
Proof.
  intros Hr Hq. pose proof (creach_cinv w Hr) as HI.
  split; [|split; [|split]].
  - intros itemId [c [Hc Hid]]. unfold removeItem.
    destruct (find_some_of_member (fun c => String.eqb (id c) itemId) _ _ c Hc
                (proj2 (String.eqb_eq _ _) Hid)) as [l [c' Hf]].
    rewrite Hf. apply reject_after_idle_enqueue; [exact HI|exact Hq|].
    idle_start HI Hq. injection Hws as <- _ _. reflexivity.
  - intros itemId q Hle [c [Hc Hid]]. unfold updateQuantity.
    destruct (find_some_of_member (fun c => String.eqb (id c) itemId) _ _ c Hc
                (proj2 (String.eqb_eq _ _) Hid)) as [l [c' Hf]].
    rewrite Hf. apply reject_after_idle_enqueue; [exact HI|exact Hq|].
    idle_start HI Hq. destruct (q <=? 0)%Z eqn:E; [|apply Z.leb_gt in E; lia].
    injection Hws as <- _ _. reflexivity.
  - unfold clearCart. apply reject_after_idle_enqueue; [exact HI|exact Hq|].
    idle_start HI Hq. injection Hws as <- _ _. reflexivity.
  - intros item Habs. unfold addItem. apply reject_after_idle_enqueue; [exact HI|exact Hq|].
    idle_start HI Hq.
    rewrite findIndex_absent in Hws.
    + cbn [option_bind] in Hws. injection Hws as <- _ _. cbn [heap].
      apply read_heap_app. exact (proj2 (ci_items _ HI)).
    + intros c Hc. apply andb_false_iff.
      destruct (Habs c Hc) as [H|H]; [left|right]; apply String.eqb_neq; exact H.
Qed.

(** X7: on an idle queue, right after [addItem] the getter [itemCount]
    has grown by the added quantity, whether the pair was already in the
    cart or not. *)
Theorem addItem_idle_itemCount w item sid now :
  creach w -> AsyncQueue.isProcessing (qs w) = false ->
  itemCount (st (addItem item sid now w)) = (itemCount (st w) + AddArg.quantity item)%Z.
Proof.
  intros Hr Hq. pose proof (creach_cinv w Hr) as HI.
  unfold itemCount. rewrite (addItem_idle_read w item sid now HI Hq).
  apply count_add_line_spec. reflexivity.
Qed.

(** X8: on an idle queue, an [addItem] of a pair not in the cart appends
    one line with id [cart-<productId>-<variantId>], the argument's fields,
    and the icon and color of [PRODUCT_META] for a known product, the
    generic ones otherwise (also for ids such as [toString]). *)
Theorem addItem_idle_new_line w item sid now :
  creach w -> AsyncQueue.isProcessing (qs w) = false ->
  (forall c, In c (read_items (st w)) ->
     productId c <> AddArg.productId item \/ variantId c <> AddArg.variantId item) ->
  read_items (st (addItem item sid now w))
  = read_items (st w)
    ++ [mkItem (cart_line_id (AddArg.productId item) (AddArg.variantId item))
               (AddArg.productId item) (AddArg.variantId item) (AddArg.name item)
               (AddArg.variant item) (AddArg.price item) (AddArg.quantity item)
               (AddArg.imageUrl item)
               (Some (product_icon (AddArg.productId item)))
               (Some (product_color (AddArg.productId item)))].
Proof.
  intros Hr Hq Habs. pose proof (creach_cinv w Hr) as HI.
  rewrite (addItem_idle_read w item sid now HI Hq).
  destruct (product_icon_js_or (AddArg.productId item)) as [-> ->].
  apply add_line_spec_absent. intros c Hc. apply andb_false_iff.
  destruct (Habs c Hc) as [H|H]; [left|right]; apply String.eqb_neq; exact H.
Qed.

(** X9: on an idle queue, right after [removeItem(itemId)], and after
    [updateQuantity(itemId, q)] with [q <= 0], the cart holds exactly the
    lines whose id differs from [itemId], in their order; a missing id
    changes nothing. *)
Theorem removal_idle_keeps_other_lines w itemId sid now :
  creach w -> AsyncQueue.isProcessing (qs w) = false ->
  read_items (st (removeItem itemId sid now w))
  = filter (fun c => negb (String.eqb (id c) itemId)) (read_items (st w))
  /\ (forall q, (q <= 0)%Z ->
        read_items (st (updateQuantity itemId q sid now w))
        = filter (fun c => negb (String.eqb (id c) itemId)) (read_items (st w))).
Proof.
  intros Hr Hq. pose proof (creach_cinv w Hr) as HI.
  split; [|intros q Hle]; unfold removeItem, updateQuantity;
    destruct (find (fun c => String.eqb (id c) itemId) (heap (st w)) (items (st w)))
      as [[l c]|] eqn:Hf.
  - idle_start HI Hq. injection Hws as <- _ _.
    apply read_filter_eq.
  - symmetry. apply filter_all_kept. exact (proj1 (find_none _ _ _) Hf).
  - idle_start HI Hq. destruct (q <=? 0)%Z eqn:E; [|apply Z.leb_gt in E; lia].
    injection Hws as <- _ _. apply read_filter_eq.
  - symmetry. apply filter_all_kept. exact (proj1 (find_none _ _ _) Hf).
Qed.

(** X10: on an idle queue, right after [updateQuantity(itemId, q)] with
    [q > 0], the first line with that id has quantity [q] and all other
    lines are unchanged; a missing id changes nothing. *)
Theorem update_idle_sets_first_line w itemId q sid now :
  creach w -> AsyncQueue.isProcessing (qs w) = false -> (0 < q)%Z ->
  read_items (st (updateQuantity itemId q sid now w))
  = set_quantity_first itemId q (read_items (st w)).
Proof.
  intros Hr Hq Hpos. pose proof (creach_cinv w Hr) as HI. unfold updateQuantity.
  destruct (find (fun c => String.eqb (id c) itemId) (heap (st w)) (items (st w)))
    as [[l c]|] eqn:Hf.
  - idle_start HI Hq. destruct (q <=? 0)%Z eqn:E; [apply Z.leb_le in E; lia|].
    rewrite Hf in Hws. injection Hws as <- _ _.
    apply (read_update_first itemId q _ _ l c); [exact (ci_items _ HI)|exact Hf].
  - symmetry. apply set_quantity_first_absent. exact (proj1 (find_none _ _ _) Hf).
Qed.

(** X11: on an idle queue, right after [clearCart] the cart is empty
    ([isEmpty] is true, [itemCount] and [total] are 0), and its work, now at
    the server, captured the old [items] as backup and returns
    [clearedItems] equal to the number of lines before the call. *)
Theorem clearCart_idle_empties w sid now :
  creach w -> AsyncQueue.isProcessing (qs w) = false ->
  let w' := clearCart sid now w in
  isEmpty (st w') = true /\ read_items (st w') = [] /\ itemCount (st w') = 0%Z
  /\ total (st w') = 0%float
  /\ nth_error (tasks w') (List.length (tasks w))
     = Some (WorkAtServer (next w) (ClearWork sid (String.append "clear-" now)) (items (st w))
                          (Cleared (List.length (read_items (st w))))).
Proof.
  intros Hr Hq w'. pose proof (creach_cinv w Hr) as HI. subst w'. unfold clearCart.
  match goal with |- context [enqueue_work ?wk ?o w] =>
    destruct (enqueue_idle_task w wk o HI Hq) as [req [ret [Hws Ht]]];
    rewrite Ht; revert Hws; generalize (st (enqueue_work wk o w)); intros s1 Hws end.
  unfold work_start in Hws. injection Hws as <- _ Hret. subst ret.
  split; [reflexivity|split; [reflexivity|split; [reflexivity|split; [reflexivity|]]]].
  rewrite nth_error_app2, Nat.sub_diag by lia. cbn.
  unfold read_items. rewrite read_length by exact (proj2 (ci_items _ HI)). reflexivity.
Qed.

(** ** The theorems on concrete runs of the store *)

Lemma creach_demo_busy : creach demo_busy.
Proof.
  apply (crun_creach [CallAddItem demo_jersey (Some "s"%string) "1"] cart_init);
    [constructor|reflexivity].
Qed.

Lemma single_mutation_at_server_witness :
  creach demo_busy
  /\ exists t wk b ret, nth_error (tasks demo_busy) 0 = Some (WorkAtServer t wk b ret) /\ 0 = 0.
Proof.
  split; [exact creach_demo_busy|].
  do 4 eexists. assert (Hk : nth_error (tasks demo_busy) 0 = Some (WorkAtServer _ _ _ _))
    by (vm_compute; reflexivity).
  split; [exact Hk|exact (single_mutation_at_server demo_busy 0 0 _ _ _ _ _ _ _ _
                             creach_demo_busy Hk Hk)].
Defined.

Lemma store_frozen_while_at_server_witness :
  let a := CallAddItem demo_other None "2" in
  let w' := addItem demo_other None "2" demo_busy in
  creach demo_busy
  /\ exists t wk b ret, nth_error (tasks demo_busy) 0 = Some (WorkAtServer t wk b ret)
     /\ cstep demo_busy a = Some w'
     /\ ((exists reply, a = MutationReply 0 reply) \/ st w' = st demo_busy).
Proof.
  intros a w'. split; [exact creach_demo_busy|].
  do 4 eexists. assert (Hk : nth_error (tasks demo_busy) 0 = Some (WorkAtServer _ _ _ _))
    by (vm_compute; reflexivity).
  assert (Hs : cstep demo_busy a = Some w') by reflexivity.
  split; [exact Hk|split; [exact Hs|]].
  exact (store_frozen_while_at_server demo_busy 0 _ _ _ _ a w' creach_demo_busy Hk Hs).
Defined.

Lemma rejected_start_restores_items_witness :
  let e := "server error"%string in
  creach demo_idle /\ AsyncQueue.isProcessing (qs demo_idle) = false
  /\ (forall itemId, (exists c, In c (read_items (st demo_idle)) /\ id c = itemId) ->
        exists w2, cstep (removeItem itemId None "2" demo_idle)
                         (MutationReply (List.length (tasks demo_idle)) (Some e))
                   = Some w2 /\ read_items (st w2) = read_items (st demo_idle))
  /\ (forall itemId q, (q <= 0)%Z -> (exists c, In c (read_items (st demo_idle)) /\ id c = itemId) ->
        exists w2, cstep (updateQuantity itemId q None "2" demo_idle)
                         (MutationReply (List.length (tasks demo_idle)) (Some e))
                   = Some w2 /\ read_items (st w2) = read_items (st demo_idle))
  /\ (exists w2, cstep (clearCart None "2" demo_idle)
                       (MutationReply (List.length (tasks demo_idle)) (Some e))
                 = Some w2 /\ read_items (st w2) = read_items (st demo_idle))
  /\ (forall item, (forall c, In c (read_items (st demo_idle)) ->
                      productId c <> AddArg.productId item \/ variantId c <> AddArg.variantId item) ->
        exists w2, cstep (addItem item None "2" demo_idle)
                         (MutationReply (List.length (tasks demo_idle)) (Some e))
                   = Some w2 /\ read_items (st w2) = read_items (st demo_idle)).
Proof.
  intros e.
  assert (Hq : AsyncQueue.isProcessing (qs demo_idle) = false) by (vm_compute; reflexivity).
  split; [exact creach_demo_idle|split; [exact Hq|]].
  exact (rejected_start_restores_items demo_idle None "2" e creach_demo_idle Hq).
Defined.

Lemma addItem_idle_itemCount_witness :
  creach demo_idle /\ AsyncQueue.isProcessing (qs demo_idle) = false
  /\ itemCount (st (addItem demo_jersey None "2" demo_idle))
     = (itemCount (st demo_idle) + AddArg.quantity demo_jersey)%Z.
Proof.
  assert (Hq : AsyncQueue.isProcessing (qs demo_idle) = false) by (vm_compute; reflexivity).
  split; [exact creach_demo_idle|split; [exact Hq|]].
  exact (addItem_idle_itemCount demo_idle demo_jersey None "2" creach_demo_idle Hq).
Defined.

Lemma addItem_idle_new_line_witness :
  let item := demo_other in
  creach demo_idle /\ AsyncQueue.isProcessing (qs demo_idle) = false
  /\ (forall c, In c (read_items (st demo_idle)) ->
        productId c <> AddArg.productId item \/ variantId c <> AddArg.variantId item)
  /\ read_items (st (addItem item None "2" demo_idle))
     = read_items (st demo_idle)
       ++ [mkItem (cart_line_id (AddArg.productId item) (AddArg.variantId item))
                  (AddArg.productId item) (AddArg.variantId item) (AddArg.name item)
                  (AddArg.variant item) (AddArg.price item) (AddArg.quantity item)
                  (AddArg.imageUrl item)
                  (Some (product_icon (AddArg.productId item)))
                  (Some (product_color (AddArg.productId item)))].
Proof.
  intros item.
  assert (Hq : AsyncQueue.isProcessing (qs demo_idle) = false) by (vm_compute; reflexivity).
  assert (Habs : forall c, In c (read_items (st demo_idle)) ->
                   productId c <> AddArg.productId item \/ variantId c <> AddArg.variantId item)
    by (vm_compute; intros c [<-|[]]; left; discriminate).
  split; [exact creach_demo_idle|split; [exact Hq|split; [exact Habs|]]].
  exact (addItem_idle_new_line demo_idle item None "2" creach_demo_idle Hq Habs).
Defined.

Lemma removal_idle_keeps_other_lines_witness :
  let itemId := cart_line_id "curry-warriors-jersey" "M" in
  creach demo_idle /\ AsyncQueue.isProcessing (qs demo_idle) = false
  /\ read_items (st (removeItem itemId None "2" demo_idle))
     = filter (fun c => negb (String.eqb (id c) itemId)) (read_items (st demo_idle))
  /\ (forall q, (q <= 0)%Z ->
        read_items (st (updateQuantity itemId q None "2" demo_idle))
        = filter (fun c => negb (String.eqb (id c) itemId)) (read_items (st demo_idle))).
Proof.
  intros itemId.
  assert (Hq : AsyncQueue.isProcessing (qs demo_idle) = false) by (vm_compute; reflexivity).
  split; [exact creach_demo_idle|split; [exact Hq|]].
  exact (removal_idle_keeps_other_lines demo_idle itemId None "2" creach_demo_idle Hq).
Defined.

Lemma update_idle_sets_first_line_witness :
  let itemId := cart_line_id "curry-warriors-jersey" "M" in
  creach demo_idle /\ AsyncQueue.isProcessing (qs demo_idle) = false /\ (0 < 3)%Z
  /\ read_items (st (updateQuantity itemId 3 None "2" demo_idle))
     = set_quantity_first itemId 3 (read_items (st demo_idle)).
Proof.
  intros itemId.
  assert (Hq : AsyncQueue.isProcessing (qs demo_idle) = false) by (vm_compute; reflexivity).
  assert (Hpos : (0 < 3)%Z) by lia.
  split; [exact creach_demo_idle|split; [exact Hq|split; [exact Hpos|]]].
  exact (update_idle_sets_first_line demo_idle itemId 3 None "2" creach_demo_idle Hq Hpos).
Defined.

Lemma clearCart_idle_empties_witness :
  creach demo_idle /\ AsyncQueue.isProcessing (qs demo_idle) = false
  /\ let w' := clearCart None "2" demo_idle in
     isEmpty (st w') = true /\ read_items (st w') = [] /\ itemCount (st w') = 0%Z
     /\ total (st w') = 0%float
     /\ nth_error (tasks w') (List.length (tasks demo_idle))
        = Some (WorkAtServer (next demo_idle) (ClearWork None (String.append "clear-" "2"))
                             (items (st demo_idle))
                             (Cleared (List.length (read_items (st demo_idle))))).
Proof.
  assert (Hq : AsyncQueue.isProcessing (qs demo_idle) = false) by (vm_compute; reflexivity).
  split; [exact creach_demo_idle|split; [exact Hq|]].
  exact (clearCart_idle_empties demo_idle None "2" creach_demo_idle Hq).
Defined.

End CartGetters.
